(** * Steam game database updater: a model of [scripts/update-games.js]

    The script keeps [games.json], a sorted list of application identifiers,
    in sync with Steam's paginated [GetAppList] endpoint, and records the time
    of the last successful fetch in [metadata.json].

    The development follows the script function by function:
    - [mergeApps]     the merge of fetched records into the catalog;
    - [fetchAllApps]  the pagination loop, against an abstract endpoint;
    - [loadGamesData], [loadMetadata], [saveGamesData], [saveMetadata]
                      the file wrappers, over a finite map from paths to
                      contents;
    - [updateGamesDatabase] the run that sequences them.

    JavaScript numbers that hold identifiers and timestamps are integers and
    are modelled by [Z]; counters that start at zero and are only incremented
    are modelled by [nat].  The members of a page have the types the endpoint
    documents (a list of records, a boolean, an integer) when they are
    present.  Calls to [fs] do what they are asked: a disk that fails is not
    modelled, and the directory a file is written or copied to is taken to
    exist.  Console output is left out. *)

From stdpp Require Import base decidable numbers list sorting gmap strings pretty.

Local Open Scope Z_scope.

(** ** Records of the listing endpoint *)

(** One entry of [response.apps].  Only [appid] is ever read by the script;
    the name stands for the fields that are carried along and dropped. *)
Record App := mkApp {
  appid : Z;
  name : string
}.

(** ** Merge *)

Module Merge.

(** The comparator handed to [Array.prototype.sort]: [(a, b) => a - b]. *)
Definition by_difference (a b : Z) : Z := a - b.

(** [a] may stay before [b] when the comparator does not return a positive
    number. *)
Definition keeps_order (cmp : Z → Z → Z) (a b : Z) : Prop := cmp a b ≤ 0.

#[export] Instance keeps_order_dec cmp a b : Decision (keeps_order cmp a b).
Proof. unfold keeps_order. apply _. Defined.

(** [arr.sort(cmp)]: a comparison sort driven by the sign of [cmp]. *)
Definition js_sort (cmp : Z → Z → Z) (arr : list Z) : list Z :=
  merge_sort (keeps_order cmp) arr.

(** The state the [for ... of] loop of [mergeApps] works on: the array
    [existingGames], the membership set [existingSet] and [addedCount]. *)
Record MergeState := mkMergeState {
  existingGames : list Z;
  existingSet : gset Z;
  addedCount : nat
}.

(** One iteration of the loop body. *)
Definition merge_step (st : MergeState) (app : App) : MergeState :=
  if decide (appid app ∈ existingSet st) then st
  else {| existingGames := existingGames st ++ [appid app];
          existingSet := {[appid app]} ∪ existingSet st;
          addedCount := S (addedCount st) |}.

Definition merge_loop (games : list Z) (newApps : list App) : MergeState :=
  fold_left merge_step newApps
    {| existingGames := games;
       existingSet := list_to_set games;
       addedCount := 0 |}.

(** [mergeApps(existingGames, newApps)] sorts its first argument in place
    and returns [{ addedCount }]; the model returns the array as it is left
    together with the count. *)
Definition mergeApps (games : list Z) (newApps : list App) : list Z * nat :=
  let st := merge_loop games newApps in
  (js_sort by_difference (existingGames st), addedCount st).

End Merge.

(** ** The host: everything the script takes from its environment *)

(** A file's content as [fs.readFileSync(path, 'utf8')] returns it: a
    sequence of UTF-16 code units. *)
Abbreviation Text := (list N).

(** What [JSON.parse] makes of a catalog file that is valid JSON. *)
Inductive CatalogJSON :=
  | NotAnArray
  | AnArray (ids : list Z).

(** [metadata.json]. *)
Record Metadata := mkMetadata {
  lastFetchTimestamp : Z;
  lastUpdateDate : option string;
  totalGames : Z;
  lastRunStats : option (Z * Z)   (* appsReceived, gamesAdded *)
}.

(** The [response] member of a page of the listing; every member may be
    missing from the JSON object. *)
Record ResponseData := mkResponseData {
  apps : option (list App);
  have_more_results : option bool;
  last_appid : option Z
}.

(** The body of an HTTP response: [response.json()] rejects, or resolves to
    [data], whose [response] member may be missing. *)
Inductive Body :=
  | Unparsable
  | Parsed (response : option ResponseData).

(** What [await fetch(url)] does: it rejects, or resolves to a response with
    its [ok] flag, its [status] and its body. *)
Inductive Reply :=
  | Rejected (message : string)
  | Answered (ok : bool) (status : Z) (body : Body).

(** The query parameters of a request, in the order [URLSearchParams] holds
    them. *)
Abbreviation Params := (list (string * string)).

Class Host := {
  (** [process.env.STEAM_API_KEY]; the empty string when it is not set. *)
  API_KEY : string;
  (** The remote endpoint: its reply to the request of page [pageCount]. *)
  endpoint : nat → Params → Reply;
  (** [path.join(__dirname, '..')] with its trailing separator. *)
  root : string;
  (** [JSON.parse] on a catalog file; [None] when it throws. *)
  JSON_parse_catalog : Text → option CatalogJSON;
  (** [JSON.parse] on the metadata file; [None] when it throws. *)
  JSON_parse_metadata : Text → option Metadata;
  (** [JSON.stringify(games, null, 2)] and [JSON.stringify(metadata, null, 2)]. *)
  JSON_stringify_catalog : list Z → Text;
  JSON_stringify_metadata : Metadata → Text;
  (** [new Date(ms).toISOString()]. *)
  toISOString : Z → string
}.

(** The readings of the clock that end up in persisted state: [Date.now()]
    in the recovery path of [loadGamesData], [Date.now()] for the new
    watermark and [new Date()] for the new update date. *)
Record Clock := mkClock {
  now_backup : Z;
  now_watermark : Z;
  now_update : Z
}.

(** ** Pagination *)

Module Fetch.

Inductive Error :=
  | NetworkError (message : string)   (* [fetch] rejected *)
  | HttpError (status : Z)            (* [!response.ok] *)
  | SyntaxError                       (* [response.json()] rejected *)
  | TypeError.                        (* [data.response] is undefined *)

(** [x || 0] on a member that holds an integer when present. *)
Definition or_zero (x : option Z) : Z :=
  match x with
  | Some v => v
  | None => 0
  end.

(** [x || false] on a member that holds a boolean when present. *)
Definition or_false (x : option bool) : bool :=
  match x with
  | Some b => b
  | None => false
  end.

(** The parameters of a request.  [params.append] turns a number into the
    numeral JavaScript prints for it, which is the decimal numeral [pretty]
    gives for the integers up to [Number.MAX_SAFE_INTEGER]. *)
Definition build_params `{Host} (lastAppId ifModifiedSince : Z) : Params :=
  [ ("key", API_KEY);
    ("max_results", "50000");
    ("include_dlc", "false");
    ("include_software", "false");
    ("include_videos", "false");
    ("include_hardware", "false") ]
  ++ (if lastAppId >? 0
      then [("last_appid", pretty lastAppId)] else [])
  ++ (if ifModifiedSince >? 0
      then [("if_modified_since", pretty ifModifiedSince)] else []).

(** The inside of the [try] block up to [const responseData]: the error
    thrown, or the page. *)
Definition read_page (reply : Reply) : Error + ResponseData :=
  match reply with
  | Rejected message => inl (NetworkError message)
  | Answered false status _ => inl (HttpError status)
  | Answered true _ Unparsable => inl SyntaxError
  | Answered true _ (Parsed None) => inl TypeError
  | Answered true _ (Parsed (Some responseData)) => inr responseData
  end.

(** [if (responseData.apps && responseData.apps.length > 0)
      allApps.push(...responseData.apps)]. *)
Definition push_apps (allApps : list App) (responseData : ResponseData) : list App :=
  match apps responseData with
  | Some received =>
      if (0 <? length received)%nat then allApps ++ received else allApps
  | None => allApps
  end.

Record LoopState := mkLoopState {
  allApps : list App;
  lastAppId : Z;
  pageCount : nat;
  hasMore : bool
}.

Inductive Outcome :=
  | Returned (records : list App)
  | Threw (error : Error)
  | OutOfFuel.

(** What a call leaves behind: how it ended, the requests it issued with
    the replies they got, and the number of one-second pauses it took. *)
Record Result := mkResult {
  outcome : Outcome;
  exchanges : list (Params * Reply);
  pauses : nat
}.

(** The [while (hasMore)] loop; [fuel] bounds the number of iterations. *)
Fixpoint fetch_loop `{Host} (fuel : nat) (ifModifiedSince : Z) (st : LoopState)
    (log : list (Params * Reply)) (slept : nat) : Result :=
  if hasMore st then
    match fuel with
    | O => mkResult OutOfFuel log slept
    | S fuel' =>
        let pageCount' := S (pageCount st) in
        let params := build_params (lastAppId st) ifModifiedSince in
        let reply := endpoint pageCount' params in
        let log' := log ++ [(params, reply)] in
        match read_page reply with
        | inl error => mkResult (Threw error) log' slept
        | inr responseData =>
            let hasMore' := or_false (have_more_results responseData) in
            fetch_loop fuel' ifModifiedSince
              {| allApps := push_apps (allApps st) responseData;
                 lastAppId := or_zero (last_appid responseData);
                 pageCount := pageCount';
                 hasMore := hasMore' |}
              log'
              (if hasMore' then S slept else slept)
        end
    end
  else mkResult (Returned (allApps st)) log slept.

Definition fetchAllApps `{Host} (fuel : nat) (ifModifiedSince : Z) : Result :=
  fetch_loop fuel ifModifiedSince
    {| allApps := []; lastAppId := 0; pageCount := 0; hasMore := true |} [] 0%nat.

End Fetch.

(** ** Files *)

Module Files.

(** The calls that change the disk. *)
Inductive FsOp :=
  | WriteFile (path : string) (data : Text)
  | CopyFile (src dest : string).

(** The disk, and the changing calls made so far, oldest first. *)
Record World := mkWorld {
  files : gmap string Text;
  history : list FsOp
}.

Definition existsSync (path : string) (w : World) : bool :=
  bool_decide (is_Some (files w !! path)).

Definition writeFileSync (path : string) (data : Text) (w : World) : World :=
  {| files := <[path := data]> (files w);
     history := history w ++ [WriteFile path data] |}.

(** The script copies a file only after [existsSync] said it is there;
    on a missing source the call changes nothing.  The directory of the
    destination is taken to exist: this is so for the backup of the
    catalog file when the path of the repository has no [.json] in it,
    the backup being then in the directory of the catalog file. *)
Definition copyFileSync (src dest : string) (w : World) : World :=
  match files w !! src with
  | Some data =>
      {| files := <[dest := data]> (files w);
         history := history w ++ [CopyFile src dest] |}
  | None => w
  end.

Definition GAMES_FILE `{Host} : string := root +:+ "games.json".
Definition METADATA_FILE `{Host} : string := root +:+ "metadata.json".

(** [if s starts with pat then Some (the rest of s)]. *)
Fixpoint strip_prefix (pat s : string) : option string :=
  match pat with
  | EmptyString => Some s
  | String a pat' =>
      match s with
      | EmptyString => None
      | String b s' => if decide (a = b) then strip_prefix pat' s' else None
      end
  end.

(** [s.replace(pat, rep)] for a string pattern and a replacement without
    [$]: the first occurrence of [pat] is replaced. *)
Fixpoint replace_first (pat rep s : string) : string :=
  match strip_prefix pat s with
  | Some rest => rep +:+ rest
  | None =>
      match s with
      | EmptyString => EmptyString
      | String c s' => String c (replace_first pat rep s')
      end
  end.

(** The byte order mark, U+FEFF. *)
Definition BOM : N := 65279%N.

(** [rawData.replace(/^\uFEFF/, '')]. *)
Definition strip_bom (rawData : Text) : Text :=
  match rawData with
  | c :: rest => if (c =? BOM)%N then rest else rawData
  | [] => []
  end.

(** ECMAScript's WhiteSpace and LineTerminator code points, the ones
    [String.prototype.trim] removes. *)
Definition is_white_space (c : N) : bool :=
  ((9 <=? c) && (c <=? 13) || (c =? 32) || (c =? 160) || (c =? 5760)
   || (8192 <=? c) && (c <=? 8202) || (c =? 8232) || (c =? 8233)
   || (c =? 8239) || (c =? 8287) || (c =? 12288) || (c =? 65279))%N.

Fixpoint trimStart (s : Text) : Text :=
  match s with
  | c :: s' => if is_white_space c then trimStart s' else s
  | [] => []
  end.

Definition trim (s : Text) : Text :=
  reverse (trimStart (reverse (trimStart s))).

(** The name of the backup taken at time [now]. *)
Definition backup_name `{Host} (now : Z) : string :=
  replace_first ".json" (".backup." +:+ pretty now +:+ ".json") GAMES_FILE.

(** [loadGamesData()], with the reading [now] of [Date.now()] its recovery
    path takes: the array it returns and the disk it leaves. *)
Definition loadGamesData `{Host} (now : Z) (w : World) : list Z * World :=
  match files w !! GAMES_FILE with
  | None => ([], w)
  | Some rawData =>
      let cleanData := strip_bom rawData in
      match trim cleanData with
      | [] => ([], w)
      | _ :: _ =>
          match JSON_parse_catalog cleanData with
          | Some (AnArray parsed) => (parsed, w)
          | Some NotAnArray => ([], w)
          | None =>
              let backupFile := backup_name now in
              ([], if existsSync GAMES_FILE w
                   then copyFileSync GAMES_FILE backupFile w else w)
          end
      end
  end.

(** [loadMetadata()]; [None] when [JSON.parse] throws. *)
Definition loadMetadata `{Host} (w : World) : option Metadata :=
  match files w !! METADATA_FILE with
  | Some data => JSON_parse_metadata data
  | None =>
      Some {| lastFetchTimestamp := 0;
              lastUpdateDate := None;
              totalGames := 0;
              lastRunStats := None |}
  end.

Definition saveGamesData `{Host} (games : list Z) (w : World) : World :=
  writeFileSync GAMES_FILE (JSON_stringify_catalog games) w.

Definition saveMetadata `{Host} (metadata : Metadata) (w : World) : World :=
  writeFileSync METADATA_FILE (JSON_stringify_metadata metadata) w.

End Files.

(** ** The run *)

Module Run.
Import Merge Fetch Files.

Inductive Status :=
  | Completed             (* the script ran to its end: exit code 0 *)
  | Exited (code : Z)     (* [process.exit(code)] *)
  | Unfinished.           (* the fetch is still running *)

(** A run: how it ended, the disk it left, the values of [games] and
    [metadata] it held at the end, and the fetch it made. *)
Record Run := mkRun {
  status : Status;
  world : World;
  games : list Z;
  metadata : option Metadata;
  fetched : option Result
}.

Definition updateGamesDatabase `{Host} (fuel : nat) (clock : Clock) (w : World) : Run :=
  let '(games, w1) := loadGamesData (now_backup clock) w in
  match loadMetadata w1 with
  | None => mkRun (Exited 1) w1 games None None
  | Some metadata =>
      let fetch := fetchAllApps fuel (lastFetchTimestamp metadata) in
      match outcome fetch with
      | OutOfFuel => mkRun Unfinished w1 games (Some metadata) (Some fetch)
      | Threw _ => mkRun (Exited 1) w1 games (Some metadata) (Some fetch)
      | Returned newApps =>
          if (length newApps =? 0)%nat then
            mkRun Completed w1 games (Some metadata) (Some fetch)
          else
            let '(games', addedCount) := mergeApps games newApps in
            let w2 := saveGamesData games' w1 in
            let metadata' :=
              {| lastFetchTimestamp := now_watermark clock / 1000;
                 lastUpdateDate := Some (toISOString (now_update clock));
                 totalGames := Z.of_nat (length games');
                 lastRunStats :=
                   Some (Z.of_nat (length newApps), Z.of_nat addedCount) |} in
            let w3 := saveMetadata metadata' w2 in
            mkRun Completed w3 games' (Some metadata') (Some fetch)
      end
  end.

(** The script: the guard on the credential, then the run. *)
Definition main `{Host} (fuel : nat) (clock : Clock) (w : World) : Run :=
  if bool_decide (API_KEY = EmptyString) then mkRun (Exited 1) w [] None None
  else updateGamesDatabase fuel clock w.

End Run.

(** * Vocabulary of the properties *)

(** ** Merge *)

(** The set mirrors the array before and after every iteration. *)
Definition in_step (st : Merge.MergeState) : Prop :=
  Merge.existingSet st = list_to_set (Merge.existingGames st).

(** ** Pagination *)

(** The records of a page: those of its [apps] member, none when the member
    is missing. *)
Definition page_records (page : ResponseData) : list App :=
  match apps page with
  | Some received => received
  | None => []
  end.

(** A reply that carries the page [page]. *)
Definition delivers (reply : Reply) (page : ResponseData) : Prop :=
  ∃ status, reply = Answered true status (Parsed (Some page)).

(** The ways a page request fails, with the error each one raises: no
    answer, an answer whose status is not a success, a body that is not
    JSON, a body without a [response] member. *)
Inductive Failed : Reply → Fetch.Error → Prop :=
  | transport_error message :
      Failed (Rejected message) (Fetch.NetworkError message)
  | bad_status status body :
      Failed (Answered false status body) (Fetch.HttpError status)
  | malformed_body status :
      Failed (Answered true status Unparsable) Fetch.SyntaxError
  | missing_response status :
      Failed (Answered true status (Parsed None)) Fetch.TypeError.

(** The cursor a reply hands to the next request. *)
Definition cursor_of (reply : Reply) : Z :=
  match Fetch.read_page reply with
  | inr page => Fetch.or_zero (last_appid page)
  | inl _ => 0
  end.

(** The cursor the script holds when it builds request number [i] (from 0)
    of the exchanges [log]: 0 at the start, then the one of the prior reply. *)
Definition cursor_before (log : list (Params * Reply)) (i : nat) : Z :=
  match i with
  | O => 0
  | S j =>
      match log !! j with
      | Some (_, reply) => cursor_of reply
      | None => 0
      end
  end.

(** The request has a parameter named [key]. *)
Definition carries (key : string) (params : Params) : Prop := key ∈ params.*1.

(** The loop of [fetchAllApps], one iteration at a time: the state after a
    page, and the request made from a state with the reply it gets. *)
Definition next_state (st : Fetch.LoopState) (page : ResponseData) : Fetch.LoopState :=
  {| Fetch.allApps := Fetch.push_apps (Fetch.allApps st) page;
     Fetch.lastAppId := Fetch.or_zero (last_appid page);
     Fetch.pageCount := S (Fetch.pageCount st);
     Fetch.hasMore := Fetch.or_false (have_more_results page) |}.

Definition request_of `{Host} (st : Fetch.LoopState) (wm : Z) : Params * Reply :=
  (Fetch.build_params (Fetch.lastAppId st) wm,
   endpoint (S (Fetch.pageCount st)) (Fetch.build_params (Fetch.lastAppId st) wm)).

(** Every request of the log was built from the watermark and from the
    cursor held at that point. *)
Definition built_from `{Host} (wm : Z) (log : list (Params * Reply)) : Prop :=
  ∀ i params reply, log !! i = Some (params, reply) →
    params = Fetch.build_params (cursor_before log i) wm.

(** Every reply of the log was a page. *)
Definition all_pages (log : list (Params * Reply)) : Prop :=
  ∀ i params reply, log !! i = Some (params, reply) →
    ∃ page, Fetch.read_page reply = inr page.

(** ** The run *)

(** A catalog file is malformed when it is not empty, by the script's own
    test for an empty file, and [JSON.parse] rejects it. *)
Definition malformed `{Host} (rawData : Text) : Prop :=
  Files.trim (Files.strip_bom rawData) ≠ [] ∧
  JSON_parse_catalog (Files.strip_bom rawData) = None.

(** The catalog file and the metadata file are as they were, and no file
    was written since. *)
Definition persisted_unchanged `{Host} (w w' : Files.World) : Prop :=
  Files.files w' !! Files.GAMES_FILE = Files.files w !! Files.GAMES_FILE ∧
  Files.files w' !! Files.METADATA_FILE = Files.files w !! Files.METADATA_FILE ∧
  ∀ path data, Files.WriteFile path data ∈ Files.history w' →
               Files.WriteFile path data ∈ Files.history w.

(** ** Hosts to run the script on *)

(** An endpoint that plays a script: page [n] of [pages], for any request,
    and no answer past the end. *)
Definition scripted (pages : list Reply) (pageCount : nat) (params : Params) : Reply :=
  match pageCount with
  | O => Rejected "no page 0"
  | S i =>
      match pages !! i with
      | Some reply => reply
      | None => Rejected "connection refused"
      end
  end.

Definition page_reply (page : ResponseData) : Reply :=
  Answered true 200 (Parsed (Some page)).

(** Stand-ins for the host's JSON functions: a [JSON.parse] on catalog
    files that knows two texts, [[]] and [{}], and rejects the rest; a
    [JSON.parse] on metadata files that rejects every text; a
    [JSON.stringify] that writes one code unit for each identifier. *)
Definition toy_parse_catalog (text : Text) : option CatalogJSON :=
  if decide (text = [91; 93]%N) then Some (AnArray [])
  else if decide (text = [123; 125]%N) then Some NotAnArray
  else None.

Definition host_of (replies : list Reply) : Host :=
  {| API_KEY := "0123456789ABCDEF";
     endpoint := scripted replies;
     root := "/srv/steam-game-database/";
     JSON_parse_catalog := toy_parse_catalog;
     JSON_parse_metadata := λ _, None;
     JSON_stringify_catalog := λ ids, Z.to_N <$> ids;
     JSON_stringify_metadata := λ _, [];
     toISOString := pretty |}.

Definition first_page : ResponseData :=
  {| apps := Some [mkApp 10 "Counter-Strike"; mkApp 20 "Team Fortress Classic"];
     have_more_results := Some true;
     last_appid := Some 20 |}.

Definition last_page : ResponseData :=
  {| apps := Some [mkApp 30 "Day of Defeat"];
     have_more_results := None;
     last_appid := None |}.

(** Two pages, then the end of the listing. *)
Definition two_page_host : Host := host_of [page_reply first_page; page_reply last_page].

(** One page, then a 503. *)
Definition failing_host : Host :=
  host_of [page_reply first_page; Answered false 503 Unparsable].

(** A listing with nothing new. *)
Definition quiet_host : Host :=
  host_of [page_reply {| apps := None; have_more_results := Some false; last_appid := None |}].

(** A first page whose cursor is negative. *)
Definition odd_cursor_host : Host :=
  host_of [page_reply {| apps := Some [mkApp 10 "Counter-Strike"];
                         have_more_results := Some true;
                         last_appid := Some (-7) |};
           page_reply last_page].


(** A disk whose catalog file holds the text [[]]. *)
Definition tidy_disk : Files.World :=
  {| Files.files := {[ "/srv/steam-game-database/games.json" := [91; 93]%N ]};
     Files.history := [] |}.

(** The metadata of a first run. *)
Definition no_metadata : Metadata :=
  {| lastFetchTimestamp := 0;
     lastUpdateDate := None;
     totalGames := 0;
     lastRunStats := None |}.

Definition noon : Clock :=
  {| now_backup := 1700000000000;
     now_watermark := 1700000004000;
     now_update := 1700000004000 |}.

(** * Vocabulary of the further properties *)

(** The identifiers of the records that give the catalog something new,
    each once. *)
Definition new_ids (catalog : list Z) (newApps : list App) : list Z :=
  remove_dups (filter (λ x, x ∉ catalog) (appid <$> newApps)).

(** The records a reply brings: those of its page, none when it is not a
    page. *)
Definition reply_records (reply : Reply) : list App :=
  match Fetch.read_page reply with
  | inr page => page_records page
  | inl _ => []
  end.

(** The reply is a page that says more pages remain. *)
Definition announces_more (reply : Reply) : bool :=
  match Fetch.read_page reply with
  | inr page => Fetch.or_false (have_more_results page)
  | inl _ => false
  end.

(** The parameters every request starts with. *)
Definition fixed_params `{Host} : Params :=
  [ ("key", API_KEY);
    ("max_results", "50000");
    ("include_dlc", "false");
    ("include_software", "false");
    ("include_videos", "false");
    ("include_hardware", "false") ].

(** Every reply of the log is the one the endpoint gave to that request,
    page after page. *)
Definition asked_in_turn `{Host} (log : list (Params * Reply)) : Prop :=
  ∀ i params reply, log !! i = Some (params, reply) →
    reply = endpoint (S i) params.

(** A text of white space only, the empty text included. *)
Definition blank (text : Text) : Prop :=
  Forall (λ c, Files.is_white_space c = true) text.

(** [s.includes(pat)]. *)
Fixpoint contains (pat s : string) : bool :=
  match Files.strip_prefix pat s with
  | Some _ => true
  | None =>
      match s with
      | EmptyString => false
      | String _ s' => contains pat s'
      end
  end.

(** ** More hosts to run the script on *)

(** An endpoint that never reaches the end of the listing. *)
Definition endless_host : Host :=
  {| API_KEY := "0123456789ABCDEF";
     endpoint := λ _ _, page_reply first_page;
     root := "/srv/steam-game-database/";
     JSON_parse_catalog := toy_parse_catalog;
     JSON_parse_metadata := λ _, None;
     JSON_stringify_catalog := λ ids, Z.to_N <$> ids;
     JSON_stringify_metadata := λ _, [];
     toISOString := pretty |}.

(** Stand-ins for the host's JSON functions that read back what they
    write: a catalog is written as an opening bracket, one code unit for
    each identifier and a closing bracket; a metadata object as its numbers
    followed by the code units of its date. *)
Definition toy_stringify_catalog (ids : list Z) : Text :=
  [91%N] ++ (Z.to_N <$> ids) ++ [93%N].

Definition toy_parse_bracketed (text : Text) : option CatalogJSON :=
  match text with
  | 91%N :: rest =>
      match reverse rest with
      | 93%N :: body => Some (AnArray (Z.of_N <$> reverse body))
      | _ => None
      end
  | _ => None
  end.

Definition toy_stringify_metadata (m : Metadata) : Text :=
  [123%N; Z.to_N (lastFetchTimestamp m); Z.to_N (totalGames m)]
  ++ match lastRunStats m with
     | Some (received, added) => [1%N; Z.to_N received; Z.to_N added]
     | None => [0%N; 0%N; 0%N]
     end
  ++ match lastUpdateDate m with
     | Some date => 1%N :: (Ascii.N_of_ascii <$> String.list_ascii_of_string date)
     | None => [0%N]
     end.

Definition toy_parse_metadata (text : Text) : option Metadata :=
  match text with
  | 123%N :: stamp :: total :: stats :: received :: added :: dated :: date =>
      Some {| lastFetchTimestamp := Z.of_N stamp;
              lastUpdateDate :=
                if (dated =? 1)%N
                then Some (String.string_of_list_ascii (Ascii.ascii_of_N <$> date))
                else None;
              totalGames := Z.of_N total;
              lastRunStats :=
                if (stats =? 1)%N then Some (Z.of_N received, Z.of_N added) else None |}
  | _ => None
  end.

Definition codec_host_of (replies : list Reply) : Host :=
  {| API_KEY := "0123456789ABCDEF";
     endpoint := scripted replies;
     root := "/srv/steam-game-database/";
     JSON_parse_catalog := toy_parse_bracketed;
     JSON_parse_metadata := toy_parse_metadata;
     JSON_stringify_catalog := toy_stringify_catalog;
     JSON_stringify_metadata := toy_stringify_metadata;
     toISOString := pretty |}.

Definition codec_host : Host :=
  codec_host_of [page_reply first_page; page_reply last_page].

(** A disk with nothing on it. *)
Definition empty_disk : Files.World :=
  {| Files.files := ∅; Files.history := [] |}.

(** A disk whose catalog file holds a byte order mark, a space and a line
    feed. *)
Definition blank_disk : Files.World :=
  {| Files.files := {[ "/srv/steam-game-database/games.json" := [65279; 32; 10]%N ]};
     Files.history := [] |}.

(** A disk whose catalog file holds a byte order mark and the text [[]]. *)
Definition marked_disk : Files.World :=
  {| Files.files := {[ "/srv/steam-game-database/games.json" := [65279; 91; 93]%N ]};
     Files.history := [] |}.

(** A disk whose metadata file holds the text [{]. *)
Definition broken_metadata_disk : Files.World :=
  {| Files.files := {[ "/srv/steam-game-database/metadata.json" := [123]%N ]};
     Files.history := [] |}.

(** The three records of the two pages. *)
Definition three_records : list App :=
  [mkApp 10 "Counter-Strike"; mkApp 20 "Team Fortress Classic"; mkApp 30 "Day of Defeat"].

(** The metadata saved by a run at [noon] that received three records and
    added three identifiers. *)
Definition noon_metadata : Metadata :=
  {| lastFetchTimestamp := 1700000004;
     lastUpdateDate := Some "1700000004000";
     totalGames := 3;
     lastRunStats := Some (3, 3) |}.

(** How often [x] occurs in [l]. *)
Definition occurrences (x : Z) (l : list Z) : nat :=
  length (filter (λ y, y = x) l).

(** [Number.MAX_SAFE_INTEGER]: up to it, the numeral JavaScript prints for
    an integer is its decimal numeral. *)
Definition MAX_SAFE_INTEGER : Z := 2 ^ 53 - 1.

(** A host whose repository lies in a directory named [repo.json]. *)
Definition dotted_host : Host :=
  {| API_KEY := "0123456789ABCDEF";
     endpoint := scripted [page_reply first_page; page_reply last_page];
     root := "/srv/repo.json/";
     JSON_parse_catalog := toy_parse_catalog;
     JSON_parse_metadata := λ _, None;
     JSON_stringify_catalog := λ ids, Z.to_N <$> ids;
     JSON_stringify_metadata := λ _, [];
     toISOString := pretty |}.

(** A disk whose catalog file holds the text [{oops] and whose metadata
    file holds the text [{]. *)
Definition doubly_broken_disk : Files.World :=
  {| Files.files :=
       {[ "/srv/steam-game-database/games.json" := [123; 111; 111; 112; 115]%N;
          "/srv/steam-game-database/metadata.json" := [123]%N ]};
     Files.history := [] |}.

(** * Properties *)

(** ** Merge *)

Section merge_facts.
Import Merge.

Lemma keeps_order_le a b : keeps_order by_difference a b ↔ a ≤ b.
Proof. unfold keeps_order, by_difference. lia. Qed.

#[local] Instance keeps_order_total : Total (keeps_order by_difference).
Proof. intros a b. rewrite !keeps_order_le. lia. Qed.

#[local] Instance keeps_order_trans : Transitive (keeps_order by_difference).
Proof. intros a b c. rewrite !keeps_order_le. lia. Qed.

#[local] Instance keeps_order_antisym : AntiSymm (=) (keeps_order by_difference).
Proof. intros a b. rewrite !keeps_order_le. lia. Qed.

Lemma js_sort_perm arr : js_sort by_difference arr ≡ₚ arr.
Proof. apply merge_sort_Permutation. Qed.

Lemma js_sort_sorted arr : Sorted (keeps_order by_difference) (js_sort by_difference arr).
Proof. apply (Sorted_merge_sort _). Qed.

Lemma Sorted_keeps_order_le l : Sorted (keeps_order by_difference) l ↔ Sorted Z.le l.
Proof.
  split; induction 1 as [|x l Hs IH Hd]; constructor; auto;
    inversion Hd; constructor; by apply keeps_order_le.
Qed.

(** Sorting an array that is in order leaves it as it is. *)
Lemma js_sort_fixed arr : Sorted Z.le arr → js_sort by_difference arr = arr.
Proof.
  intros Hs. apply (Sorted_unique (keeps_order by_difference)).
  - apply js_sort_sorted.
  - by apply Sorted_keeps_order_le.
  - apply js_sort_perm.
Qed.

Lemma merge_step_in_step st app : in_step st → in_step (merge_step st app).
Proof.
  unfold in_step, merge_step. intros Hst.
  case_decide; [done|]. simpl. rewrite Hst, list_to_set_app_L. simpl.
  by rewrite (comm_L (∪)), (right_id_L ∅ (∪)).
Qed.

Lemma merge_step_cases st app :
  (appid app ∈ existingSet st ∧ merge_step st app = st) ∨
  ((appid app ∉ existingSet st) ∧
   merge_step st app =
     {| existingGames := existingGames st ++ [appid app];
        existingSet := {[appid app]} ∪ existingSet st;
        addedCount := S (addedCount st) |}).
Proof. unfold merge_step. case_decide; auto. Qed.

(** What the loop has done after any number of records: it appended some
    identifiers, each once, none of them known before, all of them taken
    from the records, and it counted them. *)
Lemma merge_fold_spec newApps st :
  in_step st →
  let st' := fold_left merge_step newApps st in
  in_step st' ∧
  ∃ added,
    existingGames st' = existingGames st ++ added ∧
    addedCount st' = (addedCount st + length added)%nat ∧
    NoDup added ∧
    (∀ x, x ∈ added → (x ∉ existingGames st) ∧ x ∈ (appid <$> newApps)) ∧
    (∀ x, x ∈ (appid <$> newApps) → x ∈ existingGames st').
Proof.
  revert st. induction newApps as [|app rest IH]; intros st Hst; simpl.
  - split; [done|]. exists []. rewrite app_nil_r.
    split_and!; [done | simpl; lia | constructor | |]; intros x Hx; inv Hx.
  - pose proof (merge_step_in_step st app Hst) as Hst1.
    destruct (IH _ Hst1) as (Hin & added & Hg & Hc & Hnd & Hfresh & Hall).
    split; [done|].
    destruct (merge_step_cases st app) as [[Hmem Heq]|[Hmem Heq]];
      rewrite Heq in *; simpl in *.
    + exists added.
      split_and!; [done | done | done | |].
      * intros x Hx. destruct (Hfresh x Hx). split; [done|]. by right.
      * intros x Hx. apply elem_of_cons in Hx as [->|Hx]; [|by apply Hall].
        rewrite Hg. apply elem_of_app. left.
        rewrite Hst in Hmem. by apply elem_of_list_to_set in Hmem.
    + exists (appid app :: added).
      rewrite <- app_assoc in Hg. simpl in Hg.
      assert (Hnew : appid app ∉ existingGames st).
      { intros Hx. apply Hmem. rewrite Hst. by apply elem_of_list_to_set. }
      split_and!; [done | simpl; lia | | |].
      * constructor; [|done]. intros Hx. apply Hfresh in Hx as [Hx _].
        apply Hx. apply elem_of_app. right. by left.
      * intros x Hx. apply elem_of_cons in Hx as [->|Hx]; [split; [done | by left]|].
        destruct (Hfresh x Hx) as [Hx1 Hx2]. split; [|by right].
        intros Hy. apply Hx1. apply elem_of_app. by left.
      * intros x Hx. apply elem_of_cons in Hx as [->|Hx]; [|by apply Hall].
        rewrite Hg. apply elem_of_app. right. by left.
Qed.

Lemma merge_loop_spec catalog newApps :
  ∃ added,
    existingGames (merge_loop catalog newApps) = catalog ++ added ∧
    addedCount (merge_loop catalog newApps) = length added ∧
    NoDup added ∧
    (∀ x, x ∈ added → (x ∉ catalog) ∧ x ∈ (appid <$> newApps)) ∧
    (∀ x, x ∈ (appid <$> newApps) → x ∈ catalog ++ added).
Proof.
  destruct (merge_fold_spec newApps
              {| existingGames := catalog;
                 existingSet := list_to_set catalog;
                 addedCount := 0 |} eq_refl)
    as (_ & added & Hg & Hc & Hnd & Hfresh & Hall).
  exists added. unfold merge_loop. simpl in *.
  split_and!; [done | done | done | done |].
  intros x Hx. rewrite <- Hg. by apply Hall.
Qed.

(** Records whose identifiers are all known leave the loop state alone. *)
Lemma merge_fold_known newApps st :
  (∀ x, x ∈ (appid <$> newApps) → x ∈ existingSet st) →
  fold_left merge_step newApps st = st.
Proof.
  induction newApps as [|app rest IH]; intros Hk; simpl; [done|].
  assert (Hstep : merge_step st app = st).
  { unfold merge_step. case_decide as Hmem; [done|].
    exfalso. apply Hmem, Hk. by left. }
  rewrite Hstep. apply IH. intros x Hx. apply Hk. by right.
Qed.

(** The array [mergeApps] leaves is a permutation of the old array
    followed by the appended identifiers. *)
Lemma mergeApps_spec catalog newApps :
  ∃ added,
    (mergeApps catalog newApps).1 ≡ₚ catalog ++ added ∧
    (mergeApps catalog newApps).2 = length added ∧
    NoDup added ∧
    (∀ x, x ∈ added → (x ∉ catalog) ∧ x ∈ (appid <$> newApps)) ∧
    (∀ x, x ∈ (appid <$> newApps) → x ∈ catalog ++ added).
Proof.
  destruct (merge_loop_spec catalog newApps)
    as (added & Hg & Hc & Hnd & Hfresh & Hall).
  exists added. unfold mergeApps. simpl.
  split_and!; [|done..]. by rewrite js_sort_perm, Hg.
Qed.

Lemma mergeApps_sorted catalog newApps :
  Sorted Z.le (mergeApps catalog newApps).1.
Proof. apply Sorted_keeps_order_le, js_sort_sorted. Qed.

Lemma occurrences_absent x l : x ∉ l → occurrences x l = 0%nat.
Proof.
  unfold occurrences. induction l as [|y l IH]; intros Hx; [done|].
  rewrite filter_cons_False by (intros ->; apply Hx; by left).
  apply IH. intros Hl. apply Hx. by right.
Qed.

Lemma occurrences_NoDup x l : NoDup l → (occurrences x l ≤ 1)%nat.
Proof.
  unfold occurrences. induction 1 as [|y l Hy Hnd IH]; [simpl; lia|].
  destruct (decide (y = x)) as [->|Hne].
  - rewrite filter_cons_True by done. simpl.
    pose proof (occurrences_absent x l Hy) as Hzero.
    unfold occurrences in Hzero. lia.
  - by rewrite filter_cons_False.
Qed.

Lemma occurrences_app x l k :
  occurrences x (l ++ k) = (occurrences x l + occurrences x k)%nat.
Proof. unfold occurrences. by rewrite filter_app, length_app. Qed.

Lemma occurrences_perm x l k : l ≡ₚ k → occurrences x l = occurrences x k.
Proof. unfold occurrences. by intros ->. Qed.

(** C2, as the script has it: a catalog without duplicates stays without
    duplicates, whatever the records are.  In any catalog, an identifier
    that is already there is never inserted again and keeps the number of
    times it occurs, so that duplicates of the input stay; an identifier
    that is not there is inserted once at most. *)
Theorem merge_preserves_uniqueness (catalog : list Z) (newApps : list App) :
  (NoDup catalog → NoDup (mergeApps catalog newApps).1) ∧
  (∀ x, x ∈ catalog →
     occurrences x (mergeApps catalog newApps).1 = occurrences x catalog) ∧
  (∀ x, x ∉ catalog →
     (occurrences x (mergeApps catalog newApps).1 ≤ 1)%nat).
Proof.
  destruct (mergeApps_spec catalog newApps) as (added & Hp & _ & Hnd & Hfresh & _).
  split_and!.
  - intros Hcat. rewrite Hp. apply NoDup_app. split_and!; [done | | done].
    intros x Hx Hy. by destruct (Hfresh x Hy).
  - intros x Hx. rewrite (occurrences_perm _ _ _ Hp), occurrences_app.
    rewrite (occurrences_absent x added); [lia|].
    intros Hy. by destruct (Hfresh x Hy).
  - intros x Hx. rewrite (occurrences_perm _ _ _ Hp), occurrences_app.
    rewrite (occurrences_absent x catalog Hx).
    pose proof (occurrences_NoDup x added Hnd). lia.
Qed.

(** C3: merging the same records again into the merged catalog changes
    nothing and adds nothing. *)
Theorem merge_idempotent (catalog : list Z) (newApps : list App) :
  mergeApps (mergeApps catalog newApps).1 newApps =
    ((mergeApps catalog newApps).1, 0%nat).
Proof.
  set (merged := (mergeApps catalog newApps).1).
  assert (Hknown : ∀ x, x ∈ (appid <$> newApps) → x ∈ merged).
  { intros x Hx. unfold merged.
    destruct (mergeApps_spec catalog newApps) as (added & Hp & _ & _ & _ & Hall).
    rewrite Hp. by apply Hall. }
  unfold mergeApps at 1, merge_loop.
  rewrite merge_fold_known; simpl.
  - f_equal. apply js_sort_fixed, mergeApps_sorted.
  - intros x Hx. apply elem_of_list_to_set. by apply Hknown.
Qed.

(** C4: the catalog [mergeApps] leaves is in ascending order. *)
Theorem merge_sorted_ascending (catalog : list Z) (newApps : list App) :
  Sorted Z.le (mergeApps catalog newApps).1 ∧
  StronglySorted Z.le (mergeApps catalog newApps).1.
Proof.
  split; [apply mergeApps_sorted|].
  apply Sorted_StronglySorted; [apply _ | apply mergeApps_sorted].
Qed.

(** C5: the two worked examples of the merge. *)
Theorem merge_examples :
  mergeApps [] [mkApp 10 "a"; mkApp 5 "b"; mkApp 10 "a"] = ([5; 10], 2%nat) ∧
  mergeApps [5; 10] [mkApp 5 "b"] = ([5; 10], 0%nat).
Proof. split; vm_compute; reflexivity. Qed.

(** C10: the count returned is the growth of the catalog, the identifiers
    of the merged catalog are those of the old catalog together with those
    of the records, and no identifier of the old catalog is lost. *)
Theorem merge_count_and_content (catalog : list Z) (newApps : list App) :
  let merged := (mergeApps catalog newApps).1 in
  let added := (mergeApps catalog newApps).2 in
  added = (length merged - length catalog)%nat ∧
  length merged = (length catalog + added)%nat ∧
  (list_to_set merged : gset Z) =
    list_to_set catalog ∪ list_to_set (appid <$> newApps) ∧
  (∀ x, x ∈ merged ↔ x ∈ catalog ∨ x ∈ (appid <$> newApps)) ∧
  (∀ x, x ∈ catalog → x ∈ merged).
Proof.
  intros merged added.
  destruct (mergeApps_spec catalog newApps)
    as (news & Hp & Hc & _ & Hfresh & Hall).
  fold merged in Hp. fold added in Hc.
  assert (Hlen : length merged = (length catalog + added)%nat).
  { by rewrite Hp, length_app, Hc. }
  assert (Hiff : ∀ x, x ∈ merged ↔ x ∈ catalog ∨ x ∈ (appid <$> newApps)).
  { intros x. rewrite Hp, elem_of_app. split.
    - intros [Hx|Hx]; [by left | right; by apply Hfresh].
    - intros [Hx|Hx]; [by left | by apply elem_of_app, Hall]. }
  split_and!; [lia | done | | done | ].
  - apply set_eq. intros x.
    rewrite elem_of_union, !elem_of_list_to_set. apply Hiff.
  - intros x Hx. apply Hiff. by left.
Qed.

End merge_facts.

(** ** Pagination *)

Section fetch_facts.
Import Fetch.
Context `{Host}.

Lemma push_apps_records acc page : push_apps acc page = acc ++ page_records page.
Proof.
  unfold push_apps, page_records. destruct (apps page) as [[|a l]|]; simpl;
    by rewrite ?app_nil_r.
Qed.

Lemma fetch_loop_done fuel wm st log slept :
  hasMore st = false →
  fetch_loop fuel wm st log slept = mkResult (Returned (allApps st)) log slept.
Proof. intros Hmore. destruct fuel; simpl; by rewrite Hmore. Qed.

Lemma fetch_loop_throw fuel wm st log slept error :
  hasMore st = true →
  read_page (request_of st wm).2 = inl error →
  fetch_loop (S fuel) wm st log slept =
    mkResult (Threw error) (log ++ [request_of st wm]) slept.
Proof. unfold request_of. simpl. intros -> ->. done. Qed.

Lemma fetch_loop_page fuel wm st log slept page :
  hasMore st = true →
  read_page (request_of st wm).2 = inr page →
  fetch_loop (S fuel) wm st log slept =
    fetch_loop fuel wm (next_state st page) (log ++ [request_of st wm])
      (if or_false (have_more_results page) then S slept else slept).
Proof. unfold request_of. simpl. intros -> ->. done. Qed.

Lemma read_page_delivers reply page : delivers reply page → read_page reply = inr page.
Proof. by intros [status ->]. Qed.

(** The loop over a scripted endpoint: [pages] that announce more, then
    [final] that does not. *)
Lemma fetch_loop_pages (pages : list ResponseData) (final : ResponseData) :
  ∀ fuel wm st log slept,
    hasMore st = true →
    Forall (λ page, have_more_results page = Some true) pages →
    or_false (have_more_results final) = false →
    (∀ i page params, (pages ++ [final]) !! i = Some page →
       delivers (endpoint (S (pageCount st + i)) params) page) →
    (length pages < fuel)%nat →
    let r := fetch_loop fuel wm st log slept in
    outcome r = Returned (allApps st ++ concat (page_records <$> (pages ++ [final]))) ∧
    length (exchanges r) = (length log + S (length pages))%nat ∧
    pauses r = (slept + length pages)%nat.
Proof.
  induction pages as [|page rest IH]; intros fuel wm st log slept Hmore Hall Hfin Hep Hfuel;
    cbv zeta; (destruct fuel as [|fuel]; [simpl in Hfuel; lia|]).
  - assert (Hread : read_page (request_of st wm).2 = inr final).
    { apply read_page_delivers. simpl.
      rewrite <- (Nat.add_0_r (pageCount st)). by apply Hep. }
    rewrite (fetch_loop_page _ _ _ _ _ _ Hmore Hread), Hfin.
    rewrite fetch_loop_done by done. simpl.
    rewrite push_apps_records, app_nil_r, length_app. simpl.
    split_and!; (done || lia).
  - assert (Hread : read_page (request_of st wm).2 = inr page).
    { apply read_page_delivers. simpl.
      rewrite <- (Nat.add_0_r (pageCount st)). by apply Hep. }
    apply Forall_cons in Hall as [Hpage Hrest].
    rewrite (fetch_loop_page _ _ _ _ _ _ Hmore Hread), Hpage. simpl or_false. cbv iota.
    assert (Hep' : ∀ i p params, (rest ++ [final]) !! i = Some p →
              delivers (endpoint (S (pageCount (next_state st page) + i)) params) p).
    { simpl. intros i p params Hi.
      replace (S (S (pageCount st + i))) with (S (pageCount st + S i)) by lia.
      by apply Hep. }
    assert (Hnext : hasMore (next_state st page) = true) by (simpl; by rewrite Hpage).
    destruct (IH fuel wm (next_state st page) (log ++ [request_of st wm]) (S slept)
                Hnext Hrest Hfin Hep' ltac:(simpl in Hfuel; lia))
      as (Hout & Hlen & Hslept).
    rewrite Hout, Hlen, Hslept. simpl.
    rewrite push_apps_records, length_app, <- app_assoc. simpl.
    split_and!; (done || lia).
Qed.

(** C1: against an endpoint whose pages 1..k announce more and whose page
    k+1 says false or says nothing, the fetch ends after k+1 requests and
    returns the records of the k+1 pages, in the order received. *)
Theorem fetch_returns_all_pages (pages : list ResponseData) (final : ResponseData)
    (fuel : nat) (watermark : Z) :
  Forall (λ page, have_more_results page = Some true) pages →
  have_more_results final = Some false ∨ have_more_results final = None →
  (∀ i page params, (pages ++ [final]) !! i = Some page →
     delivers (endpoint (S i) params) page) →
  (length pages < fuel)%nat →
  outcome (fetchAllApps fuel watermark) =
    Returned (concat (page_records <$> (pages ++ [final]))) ∧
  length (exchanges (fetchAllApps fuel watermark)) = S (length pages).
Proof.
  intros Hall Hfin Hep Hfuel. unfold fetchAllApps.
  assert (Hfin' : or_false (have_more_results final) = false)
    by (by destruct Hfin as [-> | ->]).
  destruct (fetch_loop_pages pages final fuel watermark
              {| allApps := []; lastAppId := 0; pageCount := 0; hasMore := true |}
              [] 0%nat eq_refl Hall Hfin' Hep Hfuel) as (Hout & Hlen & _).
  by rewrite Hout, Hlen.
Qed.

Lemma cursor_before_app log more i :
  (i ≤ length log)%nat → cursor_before (log ++ more) i = cursor_before log i.
Proof.
  destruct i as [|j]; simpl; [done|]. intros Hj.
  by rewrite lookup_app_l by lia.
Qed.

Lemma cursor_before_snoc log params reply :
  cursor_before (log ++ [(params, reply)]) (S (length log)) = cursor_of reply.
Proof. simpl. by rewrite list_lookup_middle. Qed.

Lemma built_from_snoc wm st log :
  built_from wm log →
  lastAppId st = cursor_before log (length log) →
  built_from wm (log ++ [request_of st wm]).
Proof.
  intros Hlog Hcur i params reply Hi.
  apply lookup_snoc_Some in Hi as [[Hlt Hi]|[-> Heq]].
  - rewrite cursor_before_app by lia. by apply (Hlog i params reply).
  - rewrite cursor_before_app by lia. unfold request_of in Heq.
    injection Heq as <- _. by rewrite Hcur.
Qed.

Lemma all_pages_snoc wm st log page :
  all_pages log →
  read_page (request_of st wm).2 = inr page →
  all_pages (log ++ [request_of st wm]).
Proof.
  intros Hlog Hread i params reply Hi.
  apply lookup_snoc_Some in Hi as [[Hlt Hi]|[-> Heq]].
  - by apply (Hlog i params reply).
  - exists page. by rewrite Heq in Hread.
Qed.

(** What holds of the exchanges of the loop, however it ends: requests are
    built from the cursor at hand, and a reply that is not a page is the
    last one, its error being the outcome. *)
Lemma fetch_loop_log fuel :
  ∀ wm st log slept,
    built_from wm log →
    all_pages log →
    lastAppId st = cursor_before log (length log) →
    built_from wm (exchanges (fetch_loop fuel wm st log slept)) ∧
    (∀ i params reply error,
       exchanges (fetch_loop fuel wm st log slept) !! i = Some (params, reply) →
       read_page reply = inl error →
       outcome (fetch_loop fuel wm st log slept) = Threw error ∧
       length (exchanges (fetch_loop fuel wm st log slept)) = S i).
Proof.
  assert (Hstop : ∀ wm log r, exchanges r = log → built_from wm log → all_pages log →
            built_from wm (exchanges r) ∧
            (∀ i params reply error,
               exchanges r !! i = Some (params, reply) →
               read_page reply = inl error →
               outcome r = Threw error ∧ length (exchanges r) = S i)).
  { intros wm log r -> Hlog Hpages. split; [done|].
    intros i params reply error Hi Herr.
    destruct (Hpages i params reply Hi) as [page Hpage]. congruence. }
  induction fuel as [|fuel IH]; intros wm st log slept Hlog Hpages Hcur.
  - apply (Hstop wm log); [|done..]. simpl. by destruct (hasMore st).
  - destruct (hasMore st) eqn:Hmore;
      [|rewrite fetch_loop_done by done; by apply (Hstop wm log)].
    destruct (read_page (request_of st wm).2) as [error|page] eqn:Hread.
    + rewrite (fetch_loop_throw _ _ _ _ _ _ Hmore Hread). simpl.
      split; [by apply built_from_snoc|].
      intros i params reply error' Hi Herr.
      apply lookup_snoc_Some in Hi as [[Hlt Hi]|[-> Heq]].
      * destruct (Hpages i params reply Hi) as [page Hpage]. congruence.
      * rewrite Heq in Hread. simpl in Hread.
        rewrite length_app. simpl. split; [congruence | lia].
    + rewrite (fetch_loop_page _ _ _ _ _ _ Hmore Hread).
      apply IH.
      * by apply built_from_snoc.
      * by eapply all_pages_snoc.
      * rewrite length_app. simpl. rewrite Nat.add_1_r.
        unfold request_of. rewrite cursor_before_snoc.
        unfold cursor_of. unfold request_of in Hread. simpl in Hread.
        by rewrite Hread.
Qed.

Lemma built_from_nil wm : built_from wm [].
Proof. intros i params reply Hi. inv Hi. Qed.

Lemma all_pages_nil : all_pages [].
Proof. intros i params reply Hi. inv Hi. Qed.

Lemma fetchAllApps_built fuel wm : built_from wm (exchanges (fetchAllApps fuel wm)).
Proof.
  apply fetch_loop_log; [apply built_from_nil | apply all_pages_nil | done].
Qed.

(** A failed request is the last request, and its error is what the fetch
    throws. *)
Lemma fetchAllApps_failure fuel wm i params reply error :
  exchanges (fetchAllApps fuel wm) !! i = Some (params, reply) →
  read_page reply = inl error →
  outcome (fetchAllApps fuel wm) = Threw error ∧
  length (exchanges (fetchAllApps fuel wm)) = S i.
Proof.
  apply fetch_loop_log; [apply built_from_nil | apply all_pages_nil | done].
Qed.

Lemma carries_cursor cursor wm :
  carries "last_appid" (build_params cursor wm) ↔ cursor > 0.
Proof.
  unfold carries, build_params.
  destruct (Z.gtb_spec cursor 0), (Z.gtb_spec wm 0); simpl;
    rewrite !elem_of_cons, elem_of_nil; split; intros Hx; try lia;
    repeat (destruct Hx as [Hx|Hx]; [discriminate Hx|]); try done; auto 10.
Qed.

Lemma carries_watermark cursor wm :
  carries "if_modified_since" (build_params cursor wm) ↔ wm > 0.
Proof.
  unfold carries, build_params.
  destruct (Z.gtb_spec cursor 0), (Z.gtb_spec wm 0); simpl;
    rewrite !elem_of_cons, elem_of_nil; split; intros Hx; try lia;
    repeat (destruct Hx as [Hx|Hx]; [discriminate Hx|]); try done; auto 10.
Qed.

(** C6, as the script has it: a request carries the watermark exactly when
    the watermark is positive, and the cursor exactly when the cursor of the
    prior reply is positive; for values that are not negative, positive is
    the same as nonzero.  The first request carries no cursor. *)
Theorem request_parameters (fuel : nat) (watermark : Z) (i : nat)
    (params : Params) (reply : Reply) :
  exchanges (fetchAllApps fuel watermark) !! i = Some (params, reply) →
  let cursor := cursor_before (exchanges (fetchAllApps fuel watermark)) i in
  (carries "if_modified_since" params ↔ watermark > 0) ∧
  (carries "last_appid" params ↔ cursor > 0) ∧
  (0 ≤ watermark → (carries "if_modified_since" params ↔ watermark ≠ 0)) ∧
  (0 ≤ cursor → (carries "last_appid" params ↔ cursor ≠ 0)) ∧
  (i = 0%nat → ¬ carries "last_appid" params).
Proof.
  intros Hi cursor.
  pose proof (fetchAllApps_built fuel watermark i params reply Hi) as Hparams.
  fold cursor in Hparams. rewrite Hparams.
  pose proof (carries_cursor cursor watermark) as Hc.
  pose proof (carries_watermark cursor watermark) as Hw.
  split_and!; [done | done | | |].
  - intros Hpos. rewrite Hw. lia.
  - intros Hpos. rewrite Hc. lia.
  - intros Hfirst. rewrite Hc. subst i. unfold cursor. simpl. lia.
Qed.

End fetch_facts.

(** ** File names *)

Section string_facts.
Import Files.

Lemma string_app_cons a s t : String a s +:+ t = String a (s +:+ t).
Proof. reflexivity. Qed.

Lemma string_app_assoc s t u : (s +:+ t) +:+ u = s +:+ t +:+ u.
Proof.
  induction s as [|a s IH]; [done|]. by rewrite !string_app_cons, IH.
Qed.

Lemma string_length_app s t :
  String.length (s +:+ t) = (String.length s + String.length t)%nat.
Proof.
  induction s as [|a s IH]; [done|]. rewrite string_app_cons. simpl. by rewrite IH.
Qed.

Lemma strip_prefix_app pat rest : strip_prefix pat (pat +:+ rest) = Some rest.
Proof.
  induction pat as [|a pat IH]; [done|]. rewrite string_app_cons. simpl.
  by rewrite decide_True.
Qed.

Lemma strip_prefix_Some pat s rest : strip_prefix pat s = Some rest → s = pat +:+ rest.
Proof.
  revert s. induction pat as [|a pat IH]; intros s; simpl.
  - by intros [= ->].
  - destruct s as [|b s]; [done|]. case_decide as Hab; [|done].
    intros Hs. rewrite string_app_cons, Hab. f_equal. by apply IH.
Qed.

Lemma replace_first_unfold pat rep s :
  replace_first pat rep s =
    match strip_prefix pat s with
    | Some rest => rep +:+ rest
    | None =>
        match s with
        | EmptyString => EmptyString
        | String c s' => String c (replace_first pat rep s')
        end
    end.
Proof. by destruct s. Qed.

(** Where the pattern occurs, [replace_first] swaps one occurrence of it
    for the replacement and keeps what is around it. *)
Lemma replace_first_occurs pat rep before after :
  ∃ stem rest,
    before +:+ pat +:+ after = stem +:+ pat +:+ rest ∧
    replace_first pat rep (before +:+ pat +:+ after) = stem +:+ rep +:+ rest.
Proof.
  induction before as [|c before IH].
  - exists EmptyString, after. split; [done|].
    change (EmptyString +:+ pat +:+ after) with (pat +:+ after).
    by rewrite replace_first_unfold, strip_prefix_app.
  - rewrite string_app_cons, replace_first_unfold.
    destruct (strip_prefix pat (String c (before +:+ pat +:+ after))) as [rest|] eqn:Hs.
    + exists EmptyString, rest. split; [exact (strip_prefix_Some _ _ _ Hs)|done].
    + destruct IH as (stem & rest & Heq & Hrep).
      exists (String c stem), rest. rewrite !string_app_cons. split; by f_equal.
Qed.

Context `{Host}.

(** The backup is named after the catalog file, [.json] giving way to
    [.backup.<now>.json]. *)
Lemma backup_name_shape now :
  ∃ stem rest,
    GAMES_FILE = stem +:+ ".json" +:+ rest ∧
    backup_name now = stem +:+ (".backup." +:+ pretty now +:+ ".json") +:+ rest.
Proof.
  unfold backup_name.
  assert (Hg : GAMES_FILE = (root +:+ "games") +:+ ".json" +:+ EmptyString).
  { unfold GAMES_FILE. by rewrite string_app_assoc. }
  rewrite Hg. apply replace_first_occurs.
Qed.

Lemma backup_name_length now :
  (String.length GAMES_FILE + 8 ≤ String.length (backup_name now))%nat.
Proof.
  destruct (backup_name_shape now) as (stem & rest & -> & ->).
  rewrite !string_length_app. simpl. lia.
Qed.

Lemma backup_is_not_catalog now : backup_name now ≠ GAMES_FILE.
Proof.
  intros Heq. pose proof (backup_name_length now) as Hlen.
  rewrite Heq in Hlen. lia.
Qed.

Lemma backup_is_not_metadata now : backup_name now ≠ METADATA_FILE.
Proof.
  intros Heq. pose proof (backup_name_length now) as Hlen.
  rewrite Heq in Hlen. unfold GAMES_FILE, METADATA_FILE in Hlen.
  rewrite !string_length_app in Hlen. simpl in Hlen. lia.
Qed.

End string_facts.

(** ** The run *)

Section run_facts.
Import Merge Fetch Files Run.
Context `{Host}.

Lemma persisted_unchanged_refl w : persisted_unchanged w w.
Proof. by split_and!. Qed.

Lemma backup_persisted_unchanged now w :
  persisted_unchanged w (copyFileSync GAMES_FILE (backup_name now) w).
Proof.
  unfold copyFileSync. destruct (files w !! GAMES_FILE) as [data|];
    [|apply persisted_unchanged_refl].
  split_and!; simpl.
  - apply lookup_insert_ne, backup_is_not_catalog.
  - apply lookup_insert_ne, backup_is_not_metadata.
  - intros path content Hin. apply elem_of_app in Hin as [Hin|Hin]; [done|].
    apply list_elem_of_singleton in Hin. discriminate Hin.
Qed.

Lemma loadGamesData_persisted now w :
  persisted_unchanged w (loadGamesData now w).2.
Proof.
  unfold loadGamesData.
  destruct (files w !! GAMES_FILE) as [rawData|]; [|apply persisted_unchanged_refl].
  destruct (trim (strip_bom rawData)); [apply persisted_unchanged_refl|].
  destruct (JSON_parse_catalog (strip_bom rawData)) as [[|parsed]|]; simpl;
    try apply persisted_unchanged_refl.
  destruct (existsSync GAMES_FILE w);
    [apply backup_persisted_unchanged | apply persisted_unchanged_refl].
Qed.


(** The run from the point where the catalog and the metadata are loaded. *)
Lemma run_unfold fuel clock w metadata :
  loadMetadata (loadGamesData (now_backup clock) w).2 = Some metadata →
  let loaded := (loadGamesData (now_backup clock) w).1 in
  let w1 := (loadGamesData (now_backup clock) w).2 in
  let fetch := fetchAllApps fuel (lastFetchTimestamp metadata) in
  fetched (updateGamesDatabase fuel clock w) = Some fetch ∧
  (∀ error, outcome fetch = Threw error →
     updateGamesDatabase fuel clock w =
       mkRun (Exited 1) w1 loaded (Some metadata) (Some fetch)) ∧
  (outcome fetch = Returned [] →
     updateGamesDatabase fuel clock w =
       mkRun Completed w1 loaded (Some metadata) (Some fetch)) ∧
  (∀ newApps, outcome fetch = Returned newApps → newApps ≠ [] →
     let merged := (mergeApps loaded newApps).1 in
     status (updateGamesDatabase fuel clock w) = Completed ∧
     games (updateGamesDatabase fuel clock w) = merged ∧
     files (world (updateGamesDatabase fuel clock w)) !! GAMES_FILE =
       Some (JSON_stringify_catalog merged)).
Proof.
  intros Hmeta loaded w1 fetch. subst loaded w1. unfold updateGamesDatabase.
  destruct (loadGamesData (now_backup clock) w) as [loaded w1]. simpl in *.
  rewrite Hmeta. fold fetch.
  destruct (outcome fetch) as [records|error|] eqn:Hout.
  - destruct records as [|app records].
    + split_and!; [done | done | done |]. intros newApps [= <-] Hne. done.
    + change (length (app :: records) =? 0)%nat with false. cbv iota.
      split_and!; [done | done | done |].
      intros newApps [= <-] _.
      destruct (mergeApps loaded (app :: records)) as [merged addedCount].
      cbn [fst snd status games world].
      split_and!; [done | done |].
      unfold saveMetadata, saveGamesData, writeFileSync. simpl.
      rewrite lookup_insert_ne, lookup_insert_eq; [done|].
      unfold METADATA_FILE, GAMES_FILE. intros Heq.
      by apply (inj (String.app root)) in Heq.
  - split_and!; [done | | done | done]. by intros error' [= <-].
  - by split_and!.
Qed.

Lemma fetched_inv fuel clock w fetch :
  fetched (updateGamesDatabase fuel clock w) = Some fetch →
  ∃ metadata,
    loadMetadata (loadGamesData (now_backup clock) w).2 = Some metadata ∧
    fetch = fetchAllApps fuel (lastFetchTimestamp metadata).
Proof.
  destruct (loadMetadata (loadGamesData (now_backup clock) w).2) as [metadata|] eqn:Hmeta.
  - destruct (run_unfold fuel clock w metadata Hmeta) as (Hf & _).
    rewrite Hf. intros [= <-]. by exists metadata.
  - unfold updateGamesDatabase.
    destruct (loadGamesData (now_backup clock) w) as [loaded w1]. simpl in *.
    by rewrite Hmeta.
Qed.

(** C7: when the fetch returns no record, the run ends normally with the
    catalog file and the metadata file as they were, without a write to
    any file, and with [games] and [metadata] as they were loaded. *)
Theorem empty_fetch_changes_nothing (fuel : nat) (clock : Clock) (w : World)
    (fetch : Result) :
  fetched (updateGamesDatabase fuel clock w) = Some fetch →
  outcome fetch = Returned [] →
  let run := updateGamesDatabase fuel clock w in
  let loaded := loadGamesData (now_backup clock) w in
  status run = Completed ∧
  files (world run) !! GAMES_FILE = files w !! GAMES_FILE ∧
  files (world run) !! METADATA_FILE = files w !! METADATA_FILE ∧
  (∀ path data, WriteFile path data ∈ history (world run) →
                WriteFile path data ∈ history w) ∧
  games run = loaded.1 ∧
  metadata run = loadMetadata loaded.2.
Proof.
  intros Hfetched Hout run loaded.
  destruct (fetched_inv fuel clock w fetch Hfetched) as (md & Hmeta & ->).
  destruct (run_unfold fuel clock w md Hmeta) as (_ & _ & Hrun & _).
  destruct (loadGamesData_persisted (now_backup clock) w) as (Hg & Hm & Hw).
  subst run loaded. rewrite (Hrun Hout). simpl. by split_and!.
Qed.

(** C8: a page request that fails (no answer, a status that is not a
    success, a body that does not parse or has no [response] member) is the
    last request of the fetch,
    which throws the error of that request; the run then exits with code 1,
    leaving the catalog file and the metadata file as they were and having
    written no file. *)
Theorem failed_request_aborts_run (fuel : nat) (clock : Clock) (w : World)
    (md : Metadata) (i : nat) (params : Params) (reply : Reply) (error : Error) :
  loadMetadata (loadGamesData (now_backup clock) w).2 = Some md →
  exchanges (fetchAllApps fuel (lastFetchTimestamp md)) !! i = Some (params, reply) →
  Failed reply error →
  let fetch := fetchAllApps fuel (lastFetchTimestamp md) in
  let run := updateGamesDatabase fuel clock w in
  outcome fetch = Threw error ∧
  length (exchanges fetch) = S i ∧
  fetched run = Some fetch ∧
  status run = Exited 1 ∧
  files (world run) !! GAMES_FILE = files w !! GAMES_FILE ∧
  files (world run) !! METADATA_FILE = files w !! METADATA_FILE ∧
  (∀ path data, WriteFile path data ∈ history (world run) →
                WriteFile path data ∈ history w).
Proof.
  intros Hmeta Hi Hfailed fetch run.
  assert (Hread : read_page reply = inl error) by (by destruct Hfailed).
  destruct (fetchAllApps_failure _ _ _ _ _ _ Hi Hread) as [Hout Hlen].
  destruct (run_unfold fuel clock w md Hmeta) as (Hf & Hrun & _).
  destruct (loadGamesData_persisted (now_backup clock) w) as (Hg & Hm & Hw).
  subst fetch run. split_and!; [done | done | done | ..];
    rewrite (Hrun error Hout); simpl; done.
Qed.

End run_facts.

(** * The properties at work *)

(** C9 asks for a backup of every malformed catalog file and for a run that
    goes on.  The script takes the name of the backup from the path of the
    catalog file by replacing the first [.json] in it, which is the
    extension only when no directory of the path has [.json] in its name.
    For a repository in [/srv/repo.json/] the name it computes is a path
    in another directory, outside of the repository. *)
Theorem backup_path_leaves_repository :
  @Files.GAMES_FILE dotted_host = "/srv/repo.json/games.json" ∧
  @Files.backup_name dotted_host 1700000000000 =
    "/srv/repo.backup.1700000000000.json/games.json" ∧
  Files.strip_prefix (@root dotted_host)
    (@Files.backup_name dotted_host 1700000000000) = None ∧
  contains ".json" (@root dotted_host) = true.
Proof. split_and!; vm_compute; reflexivity. Qed.

(** C2 as stated fails: duplicates that are already in the catalog stay. *)
Lemma merge_keeps_old_duplicates :
  Merge.mergeApps [7; 7] [] = ([7; 7], 0%nat) ∧
  ¬ NoDup (Merge.mergeApps [7; 7] []).1.
Proof.
  split; [vm_compute; reflexivity|].
  replace (Merge.mergeApps [7; 7] []).1 with [7; 7] by (vm_compute; reflexivity).
  intros Hnd. apply NoDup_cons in Hnd as [Hx _]. apply Hx. by left.
Qed.

Lemma merge_preserves_uniqueness_witness :
  NoDup [5; 10] ∧
  NoDup (Merge.mergeApps [5; 10] [mkApp 10 "a"; mkApp 3 "c"; mkApp 3 "c"]).1 ∧
  occurrences 7 (Merge.mergeApps [7; 7] [mkApp 7 "a"; mkApp 3 "c"]).1 =
    occurrences 7 [7; 7].
Proof.
  assert (Hcat : NoDup [5; 10]).
  { apply NoDup_cons. split; [|apply NoDup_singleton].
    intros Hx. apply list_elem_of_singleton in Hx. lia. }
  split_and!.
  - exact Hcat.
  - apply (proj1 (merge_preserves_uniqueness [5; 10] _)). exact Hcat.
  - apply (proj1 (proj2 (merge_preserves_uniqueness [7; 7] _))). by left.
Defined.

Lemma fetch_returns_all_pages_witness :
  Fetch.outcome (@Fetch.fetchAllApps two_page_host 5 0) =
    Fetch.Returned [mkApp 10 "Counter-Strike"; mkApp 20 "Team Fortress Classic";
                    mkApp 30 "Day of Defeat"] ∧
  length (Fetch.exchanges (@Fetch.fetchAllApps two_page_host 5 0)) = 2%nat.
Proof.
  apply (@fetch_returns_all_pages two_page_host [first_page] last_page 5 0).
  - repeat constructor.
  - right. reflexivity.
  - intros [|[|i]] page params Hpage; simpl in Hpage; inversion Hpage; subst.
    + exists 200. reflexivity.
    + exists 200. reflexivity.
  - simpl. lia.
Defined.

Lemma request_parameters_witness :
  let params :=
    [("key", "0123456789ABCDEF"); ("max_results", "50000"); ("include_dlc", "false");
     ("include_software", "false"); ("include_videos", "false");
     ("include_hardware", "false"); ("last_appid", "20");
     ("if_modified_since", "1700000000")] in
  (carries "if_modified_since" params ↔ 1700000000 > 0) ∧
  (carries "last_appid" params ↔ 20 > 0).
Proof.
  intros params.
  destruct (@request_parameters two_page_host 5 1700000000 1 params
              (page_reply last_page)) as (Hw & Hc & _).
  - vm_compute. reflexivity.
  - split; [exact Hw | exact Hc].
Defined.

(** C6 as stated fails on a cursor that is not zero and not positive: the
    request after a page with cursor -7 carries no cursor. *)
Lemma negative_cursor_is_not_sent :
  Fetch.exchanges (@Fetch.fetchAllApps odd_cursor_host 5 0) !! 1%nat =
    Some ([("key", "0123456789ABCDEF"); ("max_results", "50000");
           ("include_dlc", "false"); ("include_software", "false");
           ("include_videos", "false"); ("include_hardware", "false")],
          page_reply last_page) ∧
  cursor_before (Fetch.exchanges (@Fetch.fetchAllApps odd_cursor_host 5 0)) 1 = -7 ∧
  -7 ≠ 0 ∧
  ¬ carries "last_appid"
      [("key", "0123456789ABCDEF"); ("max_results", "50000");
       ("include_dlc", "false"); ("include_software", "false");
       ("include_videos", "false"); ("include_hardware", "false")].
Proof.
  split_and!.
  - vm_compute. reflexivity.
  - vm_compute. reflexivity.
  - lia.
  - unfold carries. simpl. rewrite !elem_of_cons, elem_of_nil.
    intros Hx. repeat (destruct Hx as [Hx|Hx]; [discriminate Hx|]). exact Hx.
Qed.

Lemma empty_fetch_changes_nothing_witness :
  let run := @Run.updateGamesDatabase quiet_host 3 noon tidy_disk in
  Run.status run = Run.Completed ∧
  Files.files (Run.world run) !! "/srv/steam-game-database/games.json" = Some [91; 93]%N ∧
  Files.files (Run.world run) !! "/srv/steam-game-database/metadata.json" = None ∧
  Run.games run = [] ∧
  Run.metadata run = Some no_metadata.
Proof.
  intros run.
  destruct (@empty_fetch_changes_nothing quiet_host 3 noon tidy_disk
              (@Fetch.fetchAllApps quiet_host 3 0))
    as (Hstatus & Hgames & Hmeta & _ & Hmem & Hmd).
  - vm_compute. reflexivity.
  - vm_compute. reflexivity.
  - split_and!.
    + exact Hstatus.
    + etrans; [exact Hgames | vm_compute; reflexivity].
    + etrans; [exact Hmeta | vm_compute; reflexivity].
    + etrans; [exact Hmem | vm_compute; reflexivity].
    + etrans; [exact Hmd | vm_compute; reflexivity].
Defined.

Lemma failed_request_aborts_run_witness :
  let fetch := @Fetch.fetchAllApps failing_host 5 0 in
  let run := @Run.updateGamesDatabase failing_host 5 noon tidy_disk in
  Fetch.outcome fetch = Fetch.Threw (Fetch.HttpError 503) ∧
  length (Fetch.exchanges fetch) = 2%nat ∧
  Run.status run = Run.Exited 1 ∧
  Files.files (Run.world run) !! "/srv/steam-game-database/games.json" = Some [91; 93]%N.
Proof.
  intros fetch run.
  destruct (@failed_request_aborts_run failing_host 5 noon tidy_disk no_metadata 1
              [("key", "0123456789ABCDEF"); ("max_results", "50000");
               ("include_dlc", "false"); ("include_software", "false");
               ("include_videos", "false"); ("include_hardware", "false");
               ("last_appid", "20")]
              (Answered false 503 Unparsable) (Fetch.HttpError 503))
    as (Hout & Hlen & _ & Hstatus & Hgames & _).
  - vm_compute. reflexivity.
  - vm_compute. reflexivity.
  - constructor.
  - split_and!.
    + exact Hout.
    + exact Hlen.
    + exact Hstatus.
    + etrans; [exact Hgames | vm_compute; reflexivity].
Defined.

(** * Further properties *)

(** ** Merge *)

Section more_merge_facts.
Import Merge.

#[local] Existing Instances keeps_order_total keeps_order_trans keeps_order_antisym.

(** Two arrays with the same entries sort to the same array. *)
Lemma js_sort_permutation arr arr' :
  arr ≡ₚ arr' → js_sort by_difference arr = js_sort by_difference arr'.
Proof.
  intros Hp. apply (Sorted_unique (keeps_order by_difference)).
  - apply js_sort_sorted.
  - apply js_sort_sorted.
  - by rewrite !js_sort_perm.
Qed.

Lemma elem_of_new_ids catalog newApps x :
  x ∈ new_ids catalog newApps ↔ (x ∉ catalog) ∧ x ∈ (appid <$> newApps).
Proof. unfold new_ids. by rewrite elem_of_remove_dups, list_elem_of_filter. Qed.

(** What the loop appends is [new_ids], up to the order. *)
Lemma merge_loop_new_ids catalog newApps :
  ∃ added,
    existingGames (merge_loop catalog newApps) = catalog ++ added ∧
    addedCount (merge_loop catalog newApps) = length added ∧
    added ≡ₚ new_ids catalog newApps.
Proof.
  destruct (merge_loop_spec catalog newApps)
    as (added & Hg & Hc & Hnd & Hfresh & Hall).
  exists added. split_and!; [done | done |].
  apply NoDup_Permutation; [done | apply NoDup_remove_dups |].
  intros x. rewrite elem_of_new_ids. split; [apply Hfresh|].
  intros [Hx Hy]. apply Hall, elem_of_app in Hy as [Hy|Hy]; done.
Qed.

(** X1: the merged catalog is the old catalog and the distinct identifiers
    it lacked, sorted; the count returned is the number of those. *)
Theorem merge_adds_the_new_ids (catalog : list Z) (newApps : list App) :
  mergeApps catalog newApps =
    (js_sort by_difference (catalog ++ new_ids catalog newApps),
     length (new_ids catalog newApps)) ∧
  length (new_ids catalog newApps) =
    size (list_to_set (appid <$> newApps) ∖ list_to_set catalog : gset Z).
Proof.
  destruct (merge_loop_new_ids catalog newApps) as (added & Hg & Hc & Hp).
  split.
  - unfold mergeApps. cbv zeta. rewrite Hg, Hc. f_equal.
    + apply js_sort_permutation. by rewrite Hp.
    + by rewrite Hp.
  - rewrite <- (size_list_to_set (C := gset Z)) by apply NoDup_remove_dups.
    f_equal. apply set_eq. intros x.
    rewrite elem_of_list_to_set, elem_of_new_ids, elem_of_difference,
      !elem_of_list_to_set. tauto.
Qed.

(** X2: only the set of identifiers among the records matters: their order
    and their repetitions do not. *)
Theorem merge_ignores_order_and_repeats (catalog : list Z) (newApps newApps' : list App) :
  (∀ x, x ∈ (appid <$> newApps) ↔ x ∈ (appid <$> newApps')) →
  mergeApps catalog newApps = mergeApps catalog newApps'.
Proof.
  intros Hsame.
  assert (Hp : new_ids catalog newApps ≡ₚ new_ids catalog newApps').
  { apply NoDup_Permutation; [apply NoDup_remove_dups.. |].
    intros x. rewrite !elem_of_new_ids, Hsame. done. }
  destruct (merge_loop_new_ids catalog newApps) as (a & Hg & Hc & Ha).
  destruct (merge_loop_new_ids catalog newApps') as (a' & Hg' & Hc' & Ha').
  unfold mergeApps. cbv zeta. rewrite Hg, Hc, Hg', Hc'. f_equal.
  - apply js_sort_permutation. by rewrite Ha, Ha', Hp.
  - by rewrite Ha, Ha', Hp.
Qed.

(** X3: merging two batches one after the other is merging them at once:
    the catalog is the same and the counts add up. *)
Theorem merge_in_batches (catalog : list Z) (first second : list App) :
  (mergeApps (mergeApps catalog first).1 second).1 =
    (mergeApps catalog (first ++ second)).1 ∧
  ((mergeApps catalog first).2 + (mergeApps (mergeApps catalog first).1 second).2)%nat =
    (mergeApps catalog (first ++ second)).2.
Proof.
  set (merged := (mergeApps catalog first).1).
  destruct (mergeApps_spec catalog first) as (a1 & Hp1 & Hc1 & Hn1 & Hf1 & Ha1).
  fold merged in Hp1.
  destruct (mergeApps_spec merged second) as (a2 & Hp2 & Hc2 & Hn2 & Hf2 & Ha2).
  destruct (mergeApps_spec catalog (first ++ second))
    as (a & Hp & Hc & Hn & Hf & Ha).
  assert (Hadded : a1 ++ a2 ≡ₚ a).
  { apply NoDup_Permutation; [|done|].
    - apply NoDup_app. split_and!; [done | | done].
      intros x Hx1 Hx2. apply Hf2 in Hx2 as [Hx2 _]. apply Hx2.
      rewrite Hp1. apply elem_of_app. by right.
    - intros x. rewrite elem_of_app. split.
      + intros [Hx|Hx].
        * apply Hf1 in Hx as [Hx Hy].
          assert (Hxy : x ∈ catalog ++ a).
          { apply Ha. rewrite fmap_app. apply elem_of_app. by left. }
          apply elem_of_app in Hxy as [?|?]; done.
        * apply Hf2 in Hx as [Hx Hy].
          assert (Hxy : x ∈ catalog ++ a).
          { apply Ha. rewrite fmap_app. apply elem_of_app. by right. }
          apply elem_of_app in Hxy as [Hxy|?]; [|done].
          exfalso. apply Hx. rewrite Hp1. apply elem_of_app. by left.
      + intros Hx. destruct (Hf x Hx) as [Hx1 Hx2].
        rewrite fmap_app in Hx2. apply elem_of_app in Hx2 as [Hx2|Hx2].
        * left. apply Ha1, elem_of_app in Hx2 as [?|?]; done.
        * destruct (decide (x ∈ a1)) as [?|Hna]; [by left|]. right.
          apply Ha2, elem_of_app in Hx2 as [Hx2|?]; [|done].
          rewrite Hp1 in Hx2. apply elem_of_app in Hx2 as [?|?]; done. }
  split.
  - apply (Sorted_unique (keeps_order by_difference)).
    + apply js_sort_sorted.
    + apply js_sort_sorted.
    + rewrite Hp2, Hp1, Hp, <- Hadded. by rewrite app_assoc.
  - rewrite Hc1, Hc2, Hc, <- Hadded, length_app. done.
Qed.

(** X4: a catalog without duplicates comes out strictly ascending, which is
    the shape the catalog file is meant to have. *)
Theorem merge_strictly_ascending (catalog : list Z) (newApps : list App) :
  NoDup catalog → Sorted Z.lt (mergeApps catalog newApps).1.
Proof.
  intros Hcat.
  assert (Hnd : NoDup (mergeApps catalog newApps).1).
  { destruct (mergeApps_spec catalog newApps) as (added & Hp & _ & Hn & Hfresh & _).
    rewrite Hp. apply NoDup_app. split_and!; [done | | done].
    intros x Hx Hy. by destruct (Hfresh x Hy). }
  pose proof (mergeApps_sorted catalog newApps) as Hs.
  apply (Sorted_StronglySorted _) in Hs.
  induction Hs as [|x l Hs IH Hall]; [constructor|].
  apply NoDup_cons in Hnd as [Hx Hnd]. constructor; [by apply IH|].
  destruct l as [|y l]; constructor.
  apply Forall_cons in Hall as [Hxy _].
  assert (x ≠ y) by (intros ->; apply Hx; by left). lia.
Qed.

(** X5: records that are all in the catalog leave a catalog that is in
    order exactly as it is, and count for nothing. *)
Theorem merge_of_known_records (catalog : list Z) (newApps : list App) :
  Sorted Z.le catalog →
  (∀ x, x ∈ (appid <$> newApps) → x ∈ catalog) →
  mergeApps catalog newApps = (catalog, 0%nat).
Proof.
  intros Hs Hknown. unfold mergeApps, merge_loop.
  rewrite merge_fold_known; simpl.
  - f_equal. by apply js_sort_fixed.
  - intros x Hx. apply elem_of_list_to_set. by apply Hknown.
Qed.

End more_merge_facts.

(** ** Pagination *)

Section more_fetch_facts.
Import Fetch.
Context `{Host}.

Lemma reply_records_page reply page :
  read_page reply = inr page → reply_records reply = page_records page.
Proof. unfold reply_records. by intros ->. Qed.

Lemma announces_more_page reply page :
  read_page reply = inr page →
  announces_more reply = or_false (have_more_results page).
Proof. unfold announces_more. by intros ->. Qed.

(** How the loop ends, from a state in which every reply so far announced
    more: on a page that does not, on a reply that is not a page, or not
    at all within the fuel. *)
Lemma fetch_loop_trace fuel :
  ∀ wm st log slept,
    hasMore st = true →
    Forall (λ e, announces_more e.2 = true) log →
    slept = length log →
    allApps st = concat (reply_records <$> log.*2) →
    let r := fetch_loop fuel wm st log slept in
    match outcome r with
    | Returned records =>
        ∃ front params reply,
          exchanges r = front ++ [(params, reply)] ∧
          Forall (λ e, announces_more e.2 = true) front ∧
          announces_more reply = false ∧
          (∃ page, read_page reply = inr page) ∧
          records = concat (reply_records <$> (exchanges r).*2) ∧
          pauses r = length front
    | Threw error =>
        ∃ front params reply,
          exchanges r = front ++ [(params, reply)] ∧
          Forall (λ e, announces_more e.2 = true) front ∧
          read_page reply = inl error ∧
          pauses r = length front
    | OutOfFuel =>
        Forall (λ e, announces_more e.2 = true) (exchanges r) ∧
        pauses r = length (exchanges r) ∧
        length (exchanges r) = (length log + fuel)%nat
    end.
Proof.
  induction fuel as [|fuel IH]; intros wm st log slept Hmore Hlog Hslept Hall;
    cbv zeta.
  - simpl. rewrite Hmore. simpl. split_and!; [done | done | lia].
  - destruct (read_page (request_of st wm).2) as [error|page] eqn:Hread.
    + rewrite (fetch_loop_throw _ _ _ _ _ _ Hmore Hread). simpl.
      exists log, (request_of st wm).1, (request_of st wm).2.
      split_and!; [by destruct (request_of st wm) | done | done | done].
    + rewrite (fetch_loop_page _ _ _ _ _ _ Hmore Hread).
      assert (Hall' : allApps (next_state st page) =
                concat (reply_records <$> (log ++ [request_of st wm]).*2)).
      { simpl. rewrite push_apps_records, Hall, !fmap_app, concat_app. simpl.
        unfold request_of in Hread. simpl in Hread.
        by rewrite (reply_records_page _ _ Hread), app_nil_r. }
      destruct (or_false (have_more_results page)) eqn:Hnext.
      * assert (Hlog' : Forall (λ e, announces_more e.2 = true)
                          (log ++ [request_of st wm])).
        { apply Forall_app. split; [done|]. constructor; [|done].
          by rewrite (announces_more_page _ _ Hread). }
        assert (Hslept' : S slept = length (log ++ [request_of st wm])).
        { rewrite length_app. simpl. lia. }
        pose proof (IH wm (next_state st page) (log ++ [request_of st wm]) (S slept)
                      Hnext Hlog' Hslept' Hall') as Hend.
        cbv zeta in Hend.
        destruct (outcome _); [done | done |].
        destruct Hend as (? & ? & Hlen). split_and!; [done | done |].
        rewrite Hlen, length_app. simpl. lia.
      * rewrite fetch_loop_done by done. simpl.
        exists log, (request_of st wm).1, (request_of st wm).2.
        split_and!; [by destruct (request_of st wm) | done | | by exists page | | done].
        -- by rewrite (announces_more_page _ _ Hread).
        -- exact Hall'.
Qed.

Lemma fetch_loop_asked fuel :
  ∀ wm st log slept,
    asked_in_turn log →
    pageCount st = length log →
    asked_in_turn (exchanges (fetch_loop fuel wm st log slept)).
Proof.
  assert (Hsnoc : ∀ wm st log, asked_in_turn log → pageCount st = length log →
            asked_in_turn (log ++ [request_of st wm])).
  { intros wm st log Hlog Hcount i params reply Hi.
    apply lookup_snoc_Some in Hi as [[_ Hi]|[-> Heq]];
      [by apply (Hlog i params reply)|].
    unfold request_of in Heq. injection Heq as <- <-. by rewrite Hcount. }
  induction fuel as [|fuel IH]; intros wm st log slept Hlog Hcount.
  - simpl. by destruct (hasMore st).
  - destruct (hasMore st) eqn:Hmore; [|by rewrite fetch_loop_done].
    destruct (read_page (request_of st wm).2) as [error|page] eqn:Hread.
    + rewrite (fetch_loop_throw _ _ _ _ _ _ Hmore Hread). simpl. by apply Hsnoc.
    + rewrite (fetch_loop_page _ _ _ _ _ _ Hmore Hread). apply IH.
      * by apply Hsnoc.
      * rewrite length_app. simpl. lia.
Qed.

Lemma fetchAllApps_asked fuel wm : asked_in_turn (exchanges (fetchAllApps fuel wm)).
Proof.
  apply fetch_loop_asked; [|done]. intros j ? ? Hj. inv Hj.
Qed.

(** X6: whatever the endpoint does, a fetch that returns has made one
    request per page, got a page each time, all but the last announcing
    more, and returns the records of these pages in the order received. *)
Theorem fetch_returns_what_it_received (fuel : nat) (watermark : Z)
    (records : list App) :
  outcome (fetchAllApps fuel watermark) = Returned records →
  let log := exchanges (fetchAllApps fuel watermark) in
  records = concat (reply_records <$> log.*2) ∧
  (0 < length log)%nat ∧
  ∀ i params reply, log !! i = Some (params, reply) →
    reply = endpoint (S i) params ∧
    (∃ page, read_page reply = inr page) ∧
    announces_more reply = bool_decide (S i < length log)%nat.
Proof.
  intros Hout log.
  pose proof (fetch_loop_trace fuel watermark
                {| allApps := []; lastAppId := 0; pageCount := 0; hasMore := true |}
                [] 0%nat eq_refl (Forall_nil_2 _) eq_refl eq_refl) as Hend.
  cbv zeta in Hend. fold (fetchAllApps fuel watermark) in Hend.
  rewrite Hout in Hend.
  destruct Hend as (front & p & r & Hex & Hfront & Hlast & Hpage & Hrec & _).
  fold log in Hex, Hrec. split_and!; [done | rewrite Hex, length_app; simpl; lia |].
  intros i params reply Hi. split.
  { by apply (fetchAllApps_asked fuel watermark i params reply). }
  rewrite Hex in Hi |- *. rewrite length_app. simpl.
  apply lookup_snoc_Some in Hi as [[Hlt Hi]|[-> Heq]].
  - pose proof (proj1 (Forall_lookup _ _) Hfront i _ Hi) as Hmore. simpl in Hmore.
    rewrite Hmore, bool_decide_true by lia. split; [|done].
    unfold announces_more in Hmore.
    destruct (read_page reply) as [|page]; [done | by exists page].
  - injection Heq as <- <-. rewrite Hlast, bool_decide_false by lia. done.
Qed.

(** X7: a fetch that ends, by returning or by throwing, has paused once
    between two requests and not after the last one. *)
Theorem fetch_pauses_between_requests (fuel : nat) (watermark : Z) :
  outcome (fetchAllApps fuel watermark) ≠ OutOfFuel →
  S (pauses (fetchAllApps fuel watermark)) =
    length (exchanges (fetchAllApps fuel watermark)).
Proof.
  intros Hended.
  pose proof (fetch_loop_trace fuel watermark
                {| allApps := []; lastAppId := 0; pageCount := 0; hasMore := true |}
                [] 0%nat eq_refl (Forall_nil_2 _) eq_refl eq_refl) as Hend.
  cbv zeta in Hend. fold (fetchAllApps fuel watermark) in Hend.
  destruct (outcome (fetchAllApps fuel watermark)) as [records|error|]; [| |done].
  - destruct Hend as (front & p & r & -> & _ & _ & _ & _ & ->).
    rewrite length_app. simpl. lia.
  - destruct Hend as (front & p & r & -> & _ & _ & ->).
    rewrite length_app. simpl. lia.
Qed.

Lemma fetch_loop_endless fuel :
  (∀ n params, ∃ page, delivers (endpoint n params) page ∧
                       have_more_results page = Some true) →
  ∀ wm st log slept,
    hasMore st = true →
    outcome (fetch_loop fuel wm st log slept) = OutOfFuel ∧
    length (exchanges (fetch_loop fuel wm st log slept)) = (length log + fuel)%nat.
Proof.
  intros Hep. induction fuel as [|fuel IH]; intros wm st log slept Hmore.
  - simpl. rewrite Hmore. simpl. split; [done | lia].
  - destruct (Hep (S (pageCount st)) (build_params (lastAppId st) wm))
      as (page & Hpage & Hnext).
    pose proof (read_page_delivers _ _ Hpage) as Hread.
    rewrite (fetch_loop_page _ _ _ _ _ _ Hmore Hread).
    destruct (IH wm (next_state st page) (log ++ [request_of st wm])
                (if or_false (have_more_results page) then S slept else slept))
      as [Hout Hlen]; [simpl; by rewrite Hnext|].
    rewrite Hout, Hlen, length_app. simpl. split; [done | lia].
Qed.

(** X8: the loop has no page limit of its own: against an endpoint that
    announces more on every page it goes on for as long as it is let to,
    one request after the other, and neither returns nor throws. *)
Theorem fetch_has_no_page_limit (fuel : nat) (watermark : Z) :
  (∀ n params, ∃ page, delivers (endpoint n params) page ∧
                       have_more_results page = Some true) →
  outcome (fetchAllApps fuel watermark) = OutOfFuel ∧
  length (exchanges (fetchAllApps fuel watermark)) = fuel.
Proof.
  intros Hep. by apply (fetch_loop_endless fuel Hep).
Qed.

(** X9: every request starts with the same six parameters, in the same
    order; the cursor and the watermark come after them, when they are
    sent, as the decimal numerals of the prior reply's cursor and of the
    watermark, and nothing else is sent.  This is for cursors and
    watermarks up to [Number.MAX_SAFE_INTEGER], where the numeral that
    JavaScript prints for a number is the decimal numeral of the integer. *)
Theorem request_layout (fuel : nat) (watermark : Z) (i : nat)
    (params : Params) (reply : Reply) :
  exchanges (fetchAllApps fuel watermark) !! i = Some (params, reply) →
  watermark ≤ MAX_SAFE_INTEGER →
  cursor_before (exchanges (fetchAllApps fuel watermark)) i ≤ MAX_SAFE_INTEGER →
  let cursor := cursor_before (exchanges (fetchAllApps fuel watermark)) i in
  params =
    fixed_params
    ++ (if bool_decide (0 < cursor) then [("last_appid", pretty cursor)] else [])
    ++ (if bool_decide (0 < watermark)
        then [("if_modified_since", pretty watermark)] else []) ∧
  reply = endpoint (S i) params.
Proof.
  intros Hi _ _ cursor. split.
  - rewrite (fetchAllApps_built fuel watermark i params reply Hi).
    fold cursor. unfold build_params, fixed_params.
    destruct (Z.gtb_spec cursor 0), (Z.gtb_spec watermark 0);
      repeat case_bool_decide; (done || lia).
  - by apply (fetchAllApps_asked fuel watermark i params reply).
Qed.

End more_fetch_facts.

(** ** Files *)

Section more_file_facts.
Import Files.

Lemma trimStart_keeps_blank s : blank (trimStart s) ↔ blank s.
Proof.
  unfold blank. induction s as [|c s IH]; simpl; [done|].
  destruct (is_white_space c) eqn:Hc; [|done].
  rewrite IH. split; [by constructor|]. by intros [_ ?]%Forall_cons.
Qed.

Lemma trimStart_nil s : trimStart s = [] ↔ blank s.
Proof.
  unfold blank. induction s as [|c s IH]; simpl; [done|].
  destruct (is_white_space c) eqn:Hc.
  - rewrite IH. split; [by constructor|]. by intros [_ ?]%Forall_cons.
  - split; [done|]. intros [Hw _]%Forall_cons. congruence.
Qed.

(** [trim] leaves nothing exactly of the texts that are blank. *)
Lemma trim_nil s : trim s = [] ↔ blank s.
Proof.
  unfold trim.
  assert (Hrev : ∀ l : Text, reverse l = [] ↔ l = []).
  { intros l. split; [|by intros ->].
    intros Hl. by rewrite <- (reverse_involutive l), Hl. }
  rewrite Hrev, trimStart_nil. unfold blank at 1. rewrite Forall_reverse.
  apply trimStart_keeps_blank.
Qed.

Lemma string_app_nil_r s : s +:+ EmptyString = s.
Proof. induction s as [|a s IH]; [done|]. by rewrite string_app_cons, IH. Qed.

(** [.json] cannot start in [s] and end in [games.json]. *)
Lemma strip_json_no_straddle s :
  strip_prefix ".json" s = None →
  strip_prefix ".json" (s +:+ "games.json") = None.
Proof.
  destruct s as [|c1 [|c2 [|c3 [|c4 [|c5 s]]]]];
    rewrite ?string_app_cons; change (EmptyString +:+ "games.json") with "games.json";
    simpl; repeat case_decide; simplify_eq; done.
Qed.

Lemma contains_cons pat c s :
  contains pat (String c s) =
    match strip_prefix pat (String c s) with
    | Some _ => true
    | None => contains pat s
    end.
Proof. reflexivity. Qed.

Lemma replace_first_skips rep s :
  contains ".json" s = false →
  replace_first ".json" rep (s +:+ "games.json") = s +:+ "games" +:+ rep.
Proof.
  induction s as [|c s IH]; intros Hs.
  - change (EmptyString +:+ ?x) with x. simpl. by rewrite string_app_nil_r.
  - rewrite contains_cons in Hs.
    destruct (strip_prefix ".json" (String c s)) as [?|] eqn:Hstrip; [done|].
    pose proof (strip_json_no_straddle _ Hstrip) as Hno.
    rewrite string_app_cons in Hno.
    rewrite (string_app_cons c s "games.json"), replace_first_unfold, Hno.
    by rewrite (IH Hs).
Qed.

Context `{Host}.

(** X10: a catalog file that holds white space only, after its byte order
    mark if it has one, is an empty catalog: nothing is parsed, nothing is
    backed up. *)
Theorem blank_catalog_is_empty (now : Z) (w : World) (rawData : Text) :
  files w !! GAMES_FILE = Some rawData →
  blank (strip_bom rawData) →
  loadGamesData now w = ([], w).
Proof.
  intros Hfile Hblank. unfold loadGamesData. rewrite Hfile.
  apply trim_nil in Hblank. by rewrite Hblank.
Qed.

(** X11: a byte order mark in front of the catalog changes nothing to the
    catalog that is loaded. *)
Theorem byte_order_mark_is_skipped (now : Z) (w w' : World) (text : Text) :
  files w !! GAMES_FILE = Some (BOM :: text) →
  files w' !! GAMES_FILE = Some text →
  strip_bom text = text →
  (loadGamesData now w).1 = (loadGamesData now w').1.
Proof.
  intros Hw Hw' Hnone. unfold loadGamesData. rewrite Hw, Hw', Hnone.
  change (strip_bom (BOM :: text)) with text.
  destruct (trim text); [done|].
  by destruct (JSON_parse_catalog text) as [[|]|].
Qed.

(** X12: loading changes the disk for a malformed catalog file only, and
    a catalog that is not empty was found, as an array, in the file. *)
Theorem load_touches_disk_for_malformed_only (now : Z) (w : World) :
  ((loadGamesData now w).2 ≠ w →
     ∃ rawData, files w !! GAMES_FILE = Some rawData ∧ malformed rawData) ∧
  ((loadGamesData now w).1 ≠ [] →
     ∃ rawData, files w !! GAMES_FILE = Some rawData ∧
       JSON_parse_catalog (strip_bom rawData) = Some (AnArray (loadGamesData now w).1)).
Proof.
  unfold loadGamesData, malformed.
  destruct (files w !! GAMES_FILE) as [rawData|]; [|by split].
  destruct (trim (strip_bom rawData)) as [|c rest] eqn:Htrim; [by split|].
  destruct (JSON_parse_catalog (strip_bom rawData)) as [[|parsed]|] eqn:Hparse; simpl.
  - by split.
  - split; [done|]. intros _. by exists rawData.
  - split; [|done]. intros _. exists rawData. rewrite Htrim. by split_and!.
Qed.

(** X13: when the path of the repository has no [.json] in it, the backup
    lies next to the catalog file, as [games.backup.<now>.json]. *)
Theorem backup_lies_next_to_catalog (now : Z) :
  contains ".json" root = false →
  backup_name now = root +:+ "games.backup." +:+ pretty now +:+ ".json".
Proof.
  intros Hroot. unfold backup_name, GAMES_FILE.
  rewrite (replace_first_skips _ _ Hroot). f_equal.
Qed.

(** Loading a catalog file that holds what [JSON.stringify] wrote. *)
Lemma load_stringified (now : Z) (games : list Z) (w : World) (c : N) (rest : Text) :
  files w !! GAMES_FILE = Some (JSON_stringify_catalog games) →
  JSON_stringify_catalog games = c :: rest →
  c ≠ BOM →
  is_white_space c = false →
  JSON_parse_catalog (JSON_stringify_catalog games) = Some (AnArray games) →
  loadGamesData now w = (games, w).
Proof.
  intros Hfile Htext Hbom Hwhite Hparse.
  unfold loadGamesData. rewrite Hfile.
  assert (Hstrip : strip_bom (JSON_stringify_catalog games) = JSON_stringify_catalog games).
  { rewrite Htext. simpl. by rewrite (proj2 (N.eqb_neq c BOM) Hbom). }
  rewrite Hstrip, Hparse.
  destruct (trim (JSON_stringify_catalog games)) eqn:Htrim; [|done].
  apply trim_nil in Htrim. rewrite Htext in Htrim.
  apply Forall_cons in Htrim as [Hc _]. congruence.
Qed.

(** X14: a catalog that was saved loads back as it was saved, without a
    change to the disk, provided the host's [JSON.parse] reads what its
    [JSON.stringify] wrote and the text written starts with a character
    that is neither white space nor a byte order mark (JSON text for an
    array starts with a bracket). *)
Theorem saved_catalog_loads_back (now : Z) (games : list Z) (w : World)
    (c : N) (rest : Text) :
  JSON_stringify_catalog games = c :: rest →
  c ≠ BOM →
  is_white_space c = false →
  JSON_parse_catalog (JSON_stringify_catalog games) = Some (AnArray games) →
  loadGamesData now (saveGamesData games w) = (games, saveGamesData games w).
Proof.
  intros Htext Hbom Hwhite Hparse.
  apply (load_stringified now games _ c rest); [|done..].
  unfold saveGamesData, writeFileSync. simpl. apply lookup_insert_eq.
Qed.

End more_file_facts.

(** ** The run *)

Section more_run_facts.
Import Merge Fetch Files Run.
Context `{Host}.

Lemma catalog_is_not_metadata : GAMES_FILE ≠ METADATA_FILE.
Proof.
  unfold GAMES_FILE, METADATA_FILE. intros Heq.
  by apply (inj (String.app root)) in Heq.
Qed.

(** The metadata a run saves. *)
Lemma run_update fuel clock w md newApps :
  loadMetadata (loadGamesData (now_backup clock) w).2 = Some md →
  outcome (fetchAllApps fuel (lastFetchTimestamp md)) = Returned newApps →
  newApps ≠ [] →
  let loaded := loadGamesData (now_backup clock) w in
  let merged := mergeApps loaded.1 newApps in
  let saved :=
    {| lastFetchTimestamp := now_watermark clock / 1000;
       lastUpdateDate := Some (toISOString (now_update clock));
       totalGames := Z.of_nat (length merged.1);
       lastRunStats := Some (Z.of_nat (length newApps), Z.of_nat merged.2) |} in
  updateGamesDatabase fuel clock w =
    mkRun Completed (saveMetadata saved (saveGamesData merged.1 loaded.2))
      merged.1 (Some saved) (Some (fetchAllApps fuel (lastFetchTimestamp md))).
Proof.
  intros Hmeta Hout Hne. cbv zeta. unfold updateGamesDatabase.
  destruct (loadGamesData (now_backup clock) w) as [loaded w1]. simpl in Hmeta.
  rewrite Hmeta, Hout. destruct newApps as [|app rest]; [done|].
  change (length (app :: rest) =? 0)%nat with false. cbv iota.
  cbn [fst snd]. by destruct (mergeApps loaded (app :: rest)).
Qed.

Lemma loadGamesData_history now w :
  history (loadGamesData now w).2 = history w ∨
  history (loadGamesData now w).2 =
    history w ++ [CopyFile GAMES_FILE (backup_name now)].
Proof.
  unfold loadGamesData.
  destruct (files w !! GAMES_FILE) as [rawData|] eqn:Hfile; [|by left].
  destruct (trim (strip_bom rawData)); [by left|].
  destruct (JSON_parse_catalog (strip_bom rawData)) as [[|parsed]|]; simpl;
    [by left | by left |].
  destruct (existsSync GAMES_FILE w); [|by left].
  unfold copyFileSync. rewrite Hfile. by right.
Qed.

(** X15: a run that fetched at least one record ends normally, having
    written the catalog file and then the metadata file and nothing else.
    What it saved holds together: the catalog is in ascending order and has
    the identifiers it had and those that were fetched; the metadata has
    the time of the run in whole seconds as the new watermark, the size of
    the catalog, the number of records received and the number of
    identifiers added, which is the growth of the catalog and is at most
    the number of records. *)
Theorem update_run_saves_consistent_state (fuel : nat) (clock : Clock) (w : World)
    (md : Metadata) (newApps : list App) :
  loadMetadata (loadGamesData (now_backup clock) w).2 = Some md →
  outcome (fetchAllApps fuel (lastFetchTimestamp md)) = Returned newApps →
  newApps ≠ [] →
  let loaded := loadGamesData (now_backup clock) w in
  let run := updateGamesDatabase fuel clock w in
  status run = Completed ∧
  ∃ saved added,
    metadata run = Some saved ∧
    files (world run) !! GAMES_FILE = Some (JSON_stringify_catalog (games run)) ∧
    files (world run) !! METADATA_FILE = Some (JSON_stringify_metadata saved) ∧
    history (world run) =
      history loaded.2 ++
        [WriteFile GAMES_FILE (JSON_stringify_catalog (games run));
         WriteFile METADATA_FILE (JSON_stringify_metadata saved)] ∧
    Sorted Z.le (games run) ∧
    (∀ x, x ∈ games run ↔ x ∈ loaded.1 ∨ x ∈ (appid <$> newApps)) ∧
    lastFetchTimestamp saved = now_watermark clock / 1000 ∧
    lastUpdateDate saved = Some (toISOString (now_update clock)) ∧
    totalGames saved = Z.of_nat (length (games run)) ∧
    lastRunStats saved = Some (Z.of_nat (length newApps), Z.of_nat added) ∧
    length (games run) = (length loaded.1 + added)%nat ∧
    (added ≤ length newApps)%nat.
Proof.
  intros Hmeta Hout Hne loaded run. subst run.
  rewrite (run_update fuel clock w md newApps Hmeta Hout Hne). fold loaded.
  cbn [status metadata games world]. split; [done|].
  destruct (mergeApps_spec loaded.1 newApps) as (news & Hp & Hc & Hnd & Hfresh & Hall).
  eexists _, (mergeApps loaded.1 newApps).2.
  split_and!; try done.
  - unfold saveMetadata, saveGamesData, writeFileSync. simpl.
    rewrite lookup_insert_ne by (intros Heq; by apply catalog_is_not_metadata).
    apply lookup_insert_eq.
  - unfold saveMetadata, writeFileSync. simpl. apply lookup_insert_eq.
  - unfold saveMetadata, saveGamesData, writeFileSync. simpl.
    by rewrite <- app_assoc.
  - apply mergeApps_sorted.
  - intros x. rewrite Hp, elem_of_app. split.
    + intros [Hx|Hx]; [by left | right; by apply Hfresh].
    + intros [Hx|Hx]; [by left | by apply elem_of_app, Hall].
  - by rewrite Hp, length_app, Hc.
  - rewrite Hc, <- (length_fmap appid newApps).
    apply submseteq_length, NoDup_submseteq; [done|].
    intros x Hx. by apply Hfresh.
Qed.

(** X16: a metadata file that [JSON.parse] rejects ends the run with exit
    code 1 before any request is made; the catalog file and the metadata
    file stay as they were and [writeFileSync] is not called.  The one
    change the disk can have seen is the backup copy that loading a
    malformed catalog file makes, since the catalog is loaded first. *)
Theorem unreadable_metadata_stops_the_run (fuel : nat) (clock : Clock) (w : World)
    (data : Text) :
  files w !! METADATA_FILE = Some data →
  JSON_parse_metadata data = None →
  let run := updateGamesDatabase fuel clock w in
  status run = Exited 1 ∧
  fetched run = None ∧
  files (world run) !! GAMES_FILE = files w !! GAMES_FILE ∧
  files (world run) !! METADATA_FILE = Some data ∧
  (∀ path text, WriteFile path text ∈ history (world run) →
                WriteFile path text ∈ history w) ∧
  (history (world run) = history w ∨
   history (world run) =
     history w ++ [CopyFile GAMES_FILE (backup_name (now_backup clock))]) ∧
  (history (world run) ≠ history w →
     ∃ rawData, files w !! GAMES_FILE = Some rawData ∧ malformed rawData).
Proof.
  intros Hfile Hparse run.
  destruct (loadGamesData_persisted (now_backup clock) w) as (Hg & Hm & Hw).
  pose proof (loadGamesData_history (now_backup clock) w) as Hhist.
  assert (Hmeta : loadMetadata (loadGamesData (now_backup clock) w).2 = None).
  { unfold loadMetadata. by rewrite Hm, Hfile. }
  assert (Hcause : (loadGamesData (now_backup clock) w).2 ≠ w →
            ∃ rawData, files w !! GAMES_FILE = Some rawData ∧ malformed rawData).
  { unfold loadGamesData, malformed.
    destruct (files w !! GAMES_FILE) as [rawData|]; [|done].
    destruct (trim (strip_bom rawData)) as [|c rest] eqn:Htrim; [done|].
    destruct (JSON_parse_catalog (strip_bom rawData)) as [[|parsed]|] eqn:Hp;
      simpl; [done | done |].
    intros _. exists rawData. rewrite Htrim. by split_and!. }
  subst run. unfold updateGamesDatabase.
  destruct (loadGamesData (now_backup clock) w) as [loaded w1]. simpl in *.
  rewrite Hmeta. simpl.
  split_and!; [done | done | done | by rewrite Hm | done | done |].
  intros Hne. apply Hcause. intros ->. done.
Qed.


(** X18: the next run takes up where an updating run stopped, provided the
    host's [JSON.parse] reads what its [JSON.stringify] wrote: it loads
    the catalog and the metadata that were saved and fetches from the
    saved watermark; when nothing has changed since, it leaves the catalog
    and the disk as they are. *)
Theorem next_run_resumes (fuel fuel' : nat) (clock clock' : Clock) (w : World)
    (md saved : Metadata) (newApps : list App) (c : N) (rest : Text) :
  loadMetadata (loadGamesData (now_backup clock) w).2 = Some md →
  outcome (fetchAllApps fuel (lastFetchTimestamp md)) = Returned newApps →
  newApps ≠ [] →
  let run := updateGamesDatabase fuel clock w in
  metadata run = Some saved →
  JSON_parse_metadata (JSON_stringify_metadata saved) = Some saved →
  JSON_stringify_catalog (games run) = c :: rest →
  c ≠ BOM →
  is_white_space c = false →
  JSON_parse_catalog (JSON_stringify_catalog (games run)) = Some (AnArray (games run)) →
  let next := updateGamesDatabase fuel' clock' (world run) in
  let fetch := fetchAllApps fuel' (now_watermark clock / 1000) in
  loadGamesData (now_backup clock') (world run) = (games run, world run) ∧
  loadMetadata (world run) = Some saved ∧
  fetched next = Some fetch ∧
  (outcome fetch = Returned [] →
     status next = Completed ∧ games next = games run ∧ world next = world run).
Proof.
  intros Hmeta Hout Hne run. subst run.
  rewrite (run_update fuel clock w md newApps Hmeta Hout Hne).
  cbn [status metadata games world].
  set (merged := (mergeApps (loadGamesData (now_backup clock) w).1 newApps).1).
  set (w1 := (loadGamesData (now_backup clock) w).2).
  intros [= <-] Hpm Htext Hbom Hwhite Hpc.
  set (saved := {| lastFetchTimestamp := now_watermark clock / 1000 |}) in *.
  set (w3 := saveMetadata saved (saveGamesData merged w1)).
  assert (Hload : loadGamesData (now_backup clock') w3 = (merged, w3)).
  { apply (load_stringified _ merged w3 c rest); [|done..].
    unfold w3, saveMetadata, saveGamesData, writeFileSync. simpl.
    rewrite lookup_insert_ne by (intros Heq; by apply catalog_is_not_metadata).
    apply lookup_insert_eq. }
  assert (Hmd : loadMetadata w3 = Some saved).
  { unfold loadMetadata, w3, saveMetadata, writeFileSync. simpl.
    by rewrite lookup_insert_eq. }
  assert (Hmd' : loadMetadata (loadGamesData (now_backup clock') w3).2 = Some saved)
    by (by rewrite Hload).
  destruct (run_unfold fuel' clock' w3 saved Hmd') as (Hf & _ & Hnone & _).
  split_and!; [done | done | done |].
  intros Hquiet. rewrite (Hnone Hquiet), Hload. done.
Qed.

(** X19: whatever happens, a run changes the disk by at most one backup
    copy of the catalog file, taken first, and then either by nothing or,
    when it ends normally, by a write of the catalog file followed by a
    write of the metadata file. *)
Theorem run_disk_changes (fuel : nat) (clock : Clock) (w : World) :
  let run := updateGamesDatabase fuel clock w in
  ∃ copies writes,
    history (world run) = history w ++ copies ++ writes ∧
    (copies = [] ∨
     copies = [CopyFile GAMES_FILE (backup_name (now_backup clock))]) ∧
    (writes = [] ∨
     status run = Completed ∧
     ∃ catalog metadata,
       writes = [WriteFile GAMES_FILE catalog; WriteFile METADATA_FILE metadata]).
Proof.
  intros run.
  assert (Hcopies : ∃ copies,
            history (loadGamesData (now_backup clock) w).2 = history w ++ copies ∧
            (copies = [] ∨
             copies = [CopyFile GAMES_FILE (backup_name (now_backup clock))])).
  { destruct (loadGamesData_history (now_backup clock) w) as [Hh|Hh].
    - exists []. rewrite app_nil_r. by split; [|left].
    - eexists. by split; [|right]. }
  destruct Hcopies as (copies & Hhist & Hcopies). exists copies.
  destruct (loadMetadata (loadGamesData (now_backup clock) w).2) as [md|] eqn:Hmeta.
  - destruct (outcome (fetchAllApps fuel (lastFetchTimestamp md)))
      as [newApps|error|] eqn:Hout.
    + destruct (decide (newApps = [])) as [->|Hne].
      * destruct (run_unfold fuel clock w md Hmeta) as (_ & _ & Hnone & _).
        exists []. subst run. rewrite (Hnone Hout). simpl.
        rewrite app_nil_r. by split_and!; [| |left].
      * eexists. subst run.
        rewrite (run_update fuel clock w md newApps Hmeta Hout Hne).
        unfold saveMetadata, saveGamesData, writeFileSync. simpl.
        rewrite Hhist, <- !app_assoc. split_and!; [done | done |].
        right. split; [done|]. by eexists _, _.
    + destruct (run_unfold fuel clock w md Hmeta) as (_ & Hthrew & _).
      exists []. subst run. rewrite (Hthrew error Hout). simpl.
      rewrite app_nil_r. by split_and!; [| |left].
    + exists []. subst run. unfold updateGamesDatabase.
      destruct (loadGamesData (now_backup clock) w) as [loaded w1]. simpl in *.
      rewrite Hmeta, Hout. simpl. rewrite app_nil_r. by split_and!; [| |left].
  - exists []. subst run. unfold updateGamesDatabase.
    destruct (loadGamesData (now_backup clock) w) as [loaded w1]. simpl in *.
    rewrite Hmeta. simpl. rewrite app_nil_r. by split_and!; [| |left].
Qed.


End more_run_facts.

(** * The further properties at work *)

Lemma merge_ignores_order_and_repeats_witness :
  Merge.mergeApps [5] [mkApp 10 "a"; mkApp 3 "c"; mkApp 10 "a"] =
  Merge.mergeApps [5] [mkApp 3 "c"; mkApp 10 "a"].
Proof.
  apply (merge_ignores_order_and_repeats [5]).
  intros x. simpl. rewrite !elem_of_cons, !elem_of_nil. tauto.
Defined.

Lemma merge_strictly_ascending_witness :
  Sorted Z.lt (Merge.mergeApps [10; 5] [mkApp 7 "b"; mkApp 5 "a"]).1.
Proof.
  apply (merge_strictly_ascending [10; 5]).
  apply NoDup_cons. split; [|apply NoDup_singleton].
  intros Hx. apply list_elem_of_singleton in Hx. lia.
Defined.

Lemma merge_of_known_records_witness :
  Merge.mergeApps [5; 10] [mkApp 10 "a"; mkApp 5 "b"; mkApp 10 "a"] = ([5; 10], 0%nat).
Proof.
  apply (merge_of_known_records [5; 10]).
  - repeat constructor; lia.
  - intros x. simpl. rewrite !elem_of_cons, !elem_of_nil. tauto.
Defined.

Lemma fetch_returns_what_it_received_witness :
  three_records =
    concat (reply_records <$> (Fetch.exchanges (@Fetch.fetchAllApps two_page_host 5 0)).*2) ∧
  (0 < length (Fetch.exchanges (@Fetch.fetchAllApps two_page_host 5 0)))%nat.
Proof.
  destruct (@fetch_returns_what_it_received two_page_host 5 0 three_records)
    as (Hrecords & Hsome & _).
  - vm_compute. reflexivity.
  - split; [exact Hrecords | exact Hsome].
Defined.

Lemma fetch_pauses_between_requests_witness :
  S (Fetch.pauses (@Fetch.fetchAllApps failing_host 5 0)) =
    length (Fetch.exchanges (@Fetch.fetchAllApps failing_host 5 0)).
Proof.
  apply (@fetch_pauses_between_requests failing_host 5 0).
  vm_compute. discriminate.
Defined.

Lemma fetch_has_no_page_limit_witness :
  Fetch.outcome (@Fetch.fetchAllApps endless_host 40 0) = Fetch.OutOfFuel ∧
  length (Fetch.exchanges (@Fetch.fetchAllApps endless_host 40 0)) = 40%nat.
Proof.
  apply (@fetch_has_no_page_limit endless_host 40 0).
  intros n params. exists first_page. split; [|reflexivity].
  exists 200. reflexivity.
Defined.

Lemma request_layout_witness :
  [("key", "0123456789ABCDEF"); ("max_results", "50000"); ("include_dlc", "false");
   ("include_software", "false"); ("include_videos", "false");
   ("include_hardware", "false"); ("last_appid", "20");
   ("if_modified_since", "1700000000")] =
  @fixed_params two_page_host
    ++ [("last_appid", "20")] ++ [("if_modified_since", "1700000000")].
Proof.
  destruct (@request_layout two_page_host 5 1700000000 1
              [("key", "0123456789ABCDEF"); ("max_results", "50000");
               ("include_dlc", "false"); ("include_software", "false");
               ("include_videos", "false"); ("include_hardware", "false");
               ("last_appid", "20"); ("if_modified_since", "1700000000")]
              (page_reply last_page)) as (Hparams & _).
  - vm_compute. reflexivity.
  - vm_compute. discriminate.
  - vm_compute. discriminate.
  - etrans; [exact Hparams | vm_compute; reflexivity].
Defined.

Lemma blank_catalog_is_empty_witness :
  @Files.loadGamesData two_page_host 1700000000000 blank_disk = ([], blank_disk).
Proof.
  apply (@blank_catalog_is_empty two_page_host 1700000000000 blank_disk
           [65279; 32; 10]%N).
  - vm_compute. reflexivity.
  - repeat constructor.
Defined.

Lemma byte_order_mark_is_skipped_witness :
  (@Files.loadGamesData two_page_host 1700000000000 marked_disk).1 =
  (@Files.loadGamesData two_page_host 1700000000000 tidy_disk).1.
Proof.
  apply (@byte_order_mark_is_skipped two_page_host 1700000000000
           marked_disk tidy_disk [91; 93]%N).
  - vm_compute. reflexivity.
  - vm_compute. reflexivity.
  - vm_compute. reflexivity.
Defined.

Lemma backup_lies_next_to_catalog_witness :
  @Files.backup_name two_page_host 1700000000000 =
    "/srv/steam-game-database/games.backup.1700000000000.json".
Proof.
  etrans.
  - apply (@backup_lies_next_to_catalog two_page_host 1700000000000).
    vm_compute. reflexivity.
  - vm_compute. reflexivity.
Defined.

Lemma saved_catalog_loads_back_witness :
  @Files.loadGamesData codec_host 1700000000000
    (@Files.saveGamesData codec_host [10; 20; 30] empty_disk) =
  ([10; 20; 30], @Files.saveGamesData codec_host [10; 20; 30] empty_disk).
Proof.
  apply (@saved_catalog_loads_back codec_host 1700000000000 [10; 20; 30] empty_disk
           91%N [10; 20; 30; 93]%N).
  - vm_compute. reflexivity.
  - vm_compute. discriminate.
  - vm_compute. reflexivity.
  - vm_compute. reflexivity.
Defined.

Lemma update_run_saves_consistent_state_witness :
  Run.status (@Run.updateGamesDatabase two_page_host 5 noon tidy_disk) = Run.Completed.
Proof.
  destruct (@update_run_saves_consistent_state two_page_host 5 noon tidy_disk
              no_metadata three_records) as (Hstatus & _).
  - vm_compute. reflexivity.
  - vm_compute. reflexivity.
  - discriminate.
  - exact Hstatus.
Defined.

Lemma unreadable_metadata_stops_the_run_witness :
  let run := @Run.updateGamesDatabase two_page_host 5 noon doubly_broken_disk in
  Run.status run = Run.Exited 1 ∧
  Run.fetched run = None ∧
  Files.files (Run.world run) !! "/srv/steam-game-database/metadata.json" =
    Some [123]%N ∧
  Files.history (Run.world run) =
    [Files.CopyFile "/srv/steam-game-database/games.json"
       "/srv/steam-game-database/games.backup.1700000000000.json"].
Proof.
  intros run.
  destruct (@unreadable_metadata_stops_the_run two_page_host 5 noon
              doubly_broken_disk [123]%N)
    as (Hstatus & Hfetched & _ & Hkept & _ & Hhistory & _).
  - vm_compute. reflexivity.
  - vm_compute. reflexivity.
  - split_and!.
    + exact Hstatus.
    + exact Hfetched.
    + exact Hkept.
    + destruct Hhistory as [Hsame|Hcopy].
      * vm_compute in Hsame. discriminate Hsame.
      * etrans; [exact Hcopy | vm_compute; reflexivity].
Defined.


Lemma next_run_resumes_witness :
  let run := @Run.updateGamesDatabase codec_host 5 noon empty_disk in
  @Files.loadMetadata codec_host (Run.world run) = Some noon_metadata ∧
  Run.fetched (@Run.updateGamesDatabase codec_host 5 noon (Run.world run)) =
    Some (@Fetch.fetchAllApps codec_host 5 1700000004).
Proof.
  intros run.
  destruct (@next_run_resumes codec_host 5 5 noon noon empty_disk
              no_metadata noon_metadata three_records 91%N [10; 20; 30; 93]%N)
    as (_ & Hmeta & Hfetched & _).
  - vm_compute. reflexivity.
  - vm_compute. reflexivity.
  - discriminate.
  - vm_compute. reflexivity.
  - vm_compute. reflexivity.
  - vm_compute. reflexivity.
  - vm_compute. discriminate.
  - vm_compute. reflexivity.
  - vm_compute. reflexivity.
  - split; [exact Hmeta | exact Hfetched].
Defined.

